(** * cornice_sphinx: a shallow embedding of [cornice_sphinx/__init__.py]

    The development follows the module: Python text values and the
    [str] methods the module calls, the option converters, the docstring
    normaliser [trim], the document nodes built by the service renderer,
    the renderer itself ([ServiceDirective._render_service]), the
    directive entry point ([ServiceDirective.run]) and the inline code
    executor ([ExecDirective.run]).

    A Python 3 [str] is a sequence of Unicode code points and is modelled
    as a list of code points.  Whitespace and line boundaries are
    classified as CPython does for [str]. *)

From Stdlib Require Import String Ascii List ZArith NArith Lia Bool Arith.
From Stdlib Require Import DecimalString.
From Stdlib Require DecimalZ DecimalFacts.
Import ListNotations.

(** ** Text values *)

Definition char := N.
Definition str := list char.

(** A literal, written with Rocq's string syntax. *)
Definition lit (s : string) : str := map N_of_ascii (list_ascii_of_string s).

Definition TAB : char := 9%N.
Definition LF : char := 10%N.
Definition CR : char := 13%N.
Definition SPACE : char := 32%N.

Fixpoint str_eqb (a b : str) : bool :=
  match a, b with
  | [], [] => true
  | x :: a', y :: b' => N.eqb x y && str_eqb a' b'
  | _, _ => false
  end.

(** Truthiness of a [str]: the empty text is false, any other is true. *)
Definition truthy (s : str) : bool :=
  match s with [] => false | _ :: _ => true end.

(** [c.isspace()] for one code point: the characters of bidirectional
    class WS, B or S and of category Zs. *)
Definition is_space (c : char) : bool :=
  ((9 <=? c) && (c <=? 13)          (* TAB LF VT FF CR *)
   || (28 <=? c) && (c <=? 32)      (* FS GS RS US SPACE *)
   || (c =? 133) || (c =? 160)      (* NEL, NO-BREAK SPACE *)
   || (c =? 5760)                   (* OGHAM SPACE MARK *)
   || (8192 <=? c) && (c <=? 8202)  (* EN QUAD .. HAIR SPACE *)
   || (c =? 8232) || (c =? 8233)    (* LINE and PARAGRAPH SEPARATOR *)
   || (c =? 8239) || (c =? 8287)    (* NARROW NBSP, MEDIUM MATH SPACE *)
   || (c =? 12288))%N.              (* IDEOGRAPHIC SPACE *)

(** The line boundaries of [str.splitlines]:
    LF, VT, FF, CR, FS, GS, RS, NEL, LS and PS. *)
Definition is_linebreak (c : char) : bool :=
  ((10 <=? c) && (c <=? 13) || (28 <=? c) && (c <=? 30)
   || (c =? 133) || (c =? 8232) || (c =? 8233))%N.

Definition is_tab (c : char) : bool := (c =? TAB)%N.

(** [s.lstrip()], [s.rstrip()], [s.strip()] with no argument. *)
Fixpoint lstrip (s : str) : str :=
  match s with
  | [] => []
  | c :: s' => if is_space c then lstrip s' else s
  end.

Definition rstrip (s : str) : str := rev (lstrip (rev s)).

Definition strip (s : str) : str := rstrip (lstrip s).

(** [s.expandtabs()] with the default tab size 8.  The column restarts
    after LF and CR only, as in CPython. *)
Fixpoint expandtabs_from (col : nat) (s : str) : str :=
  match s with
  | [] => []
  | c :: s' =>
      if is_tab c then
        let incr := 8 - col mod 8 in
        repeat SPACE incr ++ expandtabs_from (col + incr) s'
      else
        c :: expandtabs_from
               (if N.eqb c LF || N.eqb c CR then 0 else S col) s'
  end.

Definition expandtabs (s : str) : str := expandtabs_from 0 s.

(** [s.splitlines()] without [keepends]: a CR immediately followed by LF
    is one boundary, and a boundary at the very end opens no new line. *)
Fixpoint splitlines (s : str) : list str :=
  match s with
  | [] => []
  | c :: s' =>
      if is_linebreak c then
        [] :: match s' with
              | c' :: s'' =>
                  if N.eqb c CR && N.eqb c' LF
                  then splitlines s'' else splitlines s'
              | [] => []
              end
      else
        match splitlines s' with
        | [] => [[c]]
        | l :: ls => (c :: l) :: ls
        end
  end.

(** [sep.join(parts)]. *)
Fixpoint join (sep : str) (parts : list str) : str :=
  match parts with
  | [] => []
  | [p] => p
  | p :: ps => p ++ sep ++ join sep ps
  end.

(** ** Exceptions *)

Inductive exn : Type :=
| KeyError (key : str)
| AttributeError (name : str)
| IndexError
| ValueError (msg : str)
| TypeError
| ExternalError (msg : str).

Inductive result (A : Type) : Type :=
| OK (a : A)
| Raise (e : exn).
Arguments OK {A} a.
Arguments Raise {A} e.

Definition bind {A B} (m : result A) (k : A -> result B) : result B :=
  match m with
  | OK a => k a
  | Raise e => Raise e
  end.

Declare Scope py_scope.
Delimit Scope py_scope with py.
Notation "x <- m ;; k" := (bind m (fun x => k))
  (at level 61, m at next level, right associativity) : py_scope.

(** ** The docstring normaliser *)

(** [sys.maxsize] of a 64-bit CPython. *)
Definition sys_maxsize : Z := 2 ^ 63 - 1.

(** One turn of the loop over [lines[1:]] that determines the minimum
    indentation. *)
Definition indent_step (indent : Z) (line : str) : Z :=
  let stripped := lstrip line in
  if truthy stripped
  then Z.min indent (Z.of_nat (length line) - Z.of_nat (length stripped))
  else indent.

Definition min_indent (lines : list str) : Z :=
  fold_left indent_step lines sys_maxsize.

(** [while trimmed and not trimmed[0]: trimmed.pop(0)] *)
Fixpoint pop_leading (trimmed : list str) : list str :=
  match trimmed with
  | [] :: rest => pop_leading rest
  | _ => trimmed
  end.

(** [while trimmed and not trimmed[-1]: trimmed.pop()] *)
Definition pop_trailing (trimmed : list str) : list str :=
  rev (pop_leading (rev trimmed)).

(** [trim(docstring)].  The argument is [None] or a text; [lines[0]]
    raises [IndexError] on an empty list.  The module only loads on
    Python 3 (its class body has variable annotations), so [PY3] holds
    and the joined text is returned as it is. *)
Definition trim (docstring : option str) : result str :=
  match docstring with
  | None => OK []
  | Some [] => OK []
  | Some d =>
      let lines := splitlines (expandtabs d) in
      let indent := min_indent (tl lines) in
      match lines with
      | [] => Raise IndexError
      | first :: _ =>
          let trimmed :=
            strip first ::
            (if (indent <? sys_maxsize)%Z
             then map (fun line => rstrip (skipn (Z.to_nat indent) line))
                      (tl lines)
             else []) in
          OK (join [LF] (pop_leading (pop_trailing trimmed)))
      end
  end.

(** [x or ""] for [x] a text or [None]. *)
Definition or_empty (x : option str) : str :=
  match x with
  | Some ((_ :: _) as d) => d
  | _ => []
  end.

(** [format_docstring(obj)]: only [obj.__doc__] is read, so the object
    is represented by that attribute. *)
Definition format_docstring (doc : option str) : result str :=
  (t <- trim (Some (or_empty doc)) ;; OK (t ++ [LF]))%py.


(** ** More [str] methods and formatting *)

Definition COMMA : char := 44%N.
Definition SLASH : char := 47%N.

Fixpoint is_prefix (p s : str) : bool :=
  match p, s with
  | [], _ => true
  | x :: p', y :: s' => N.eqb x y && is_prefix p' s'
  | _ :: _, [] => false
  end.

(** [needle in hay] for two texts. *)
Fixpoint contains (needle hay : str) : bool :=
  match hay with
  | [] => is_prefix needle []
  | _ :: hay' => is_prefix needle hay || contains needle hay'
  end.

(** [x in xs] for a text and a list of texts. *)
Definition mem (x : str) (xs : list str) : bool := existsb (str_eqb x) xs.

(** [s.replace(old, new)]: the occurrences of [old] are found from the
    left and do not overlap; an empty [old] matches before every
    character and at the end. *)
Fixpoint replace_from (skip : nat) (old new s : str) : str :=
  match s with
  | [] => []
  | c :: s' =>
      match skip with
      | S k => replace_from k old new s'
      | 0 =>
          if is_prefix old s
          then new ++ replace_from (length old - 1) old new s'
          else c :: replace_from 0 old new s'
      end
  end.

Definition replace (old new s : str) : str :=
  match old with
  | [] => new ++ flat_map (fun c => c :: new) s
  | _ :: _ => replace_from 0 old new s
  end.

(** [for k, v in d.items(): s = s.replace(k, v)] *)
Definition replace_all (d : list (str * str)) (s : str) : str :=
  fold_left (fun acc kv => replace (fst kv) (snd kv) acc) d s.

(** [s.split(sep)] for a separator of one character. *)
Fixpoint split_on (sep : char) (s : str) : list str :=
  match s with
  | [] => [[]]
  | c :: s' =>
      if N.eqb c sep then [] :: split_on sep s'
      else match split_on sep s' with
           | l :: ls => (c :: l) :: ls
           | [] => [[c]]
           end
  end.

(** ["%d" % n] *)
Definition decimal (n : Z) : str := lit (NilZero.string_of_int (Z.to_int n)).

(** [os.path.basename] on a POSIX path: what follows the last slash. *)
Fixpoint until_slash (s : str) : str :=
  match s with
  | [] => []
  | c :: s' => if N.eqb c SLASH then [] else c :: until_slash s'
  end.

Definition basename (p : str) : str := rev (until_slash (rev p)).

(** Dictionaries with text keys, in insertion order. *)
Fixpoint lookup {A : Type} (key : str) (d : list (str * A)) : option A :=
  match d with
  | [] => None
  | (k, v) :: d' => if str_eqb key k then Some v else lookup key d'
  end.

(** ** Directive options *)

(** [convert_to_list(argument)] *)
Definition convert_to_list (argument : option str) : list str :=
  match argument with
  | None => []
  | Some a => map strip (split_on COMMA a)
  end.

(** [convert_to_list_required(argument)] *)
Definition convert_to_list_required (argument : option str)
  : result (list str) :=
  match argument with
  | None => Raise (ValueError (lit "argument required but none supplied"))
  | Some _ => OK (convert_to_list argument)
  end.

(** [from_json_to_dict(argument)]; [json.loads] is a collaborator, and
    the arguments of interest decode to an object with text values. *)
Definition from_json_to_dict
    (json_loads : str -> result (list (str * str)))
    (argument : option str) : result (list (str * str)) :=
  match argument with
  | None => OK []
  | Some a => json_loads a
  end.

(** [docutils.parsers.rst.directives.unchanged] *)
Definition unchanged (argument : option str) : str :=
  match argument with
  | None => []
  | Some a => a
  end.

(** The values [self.options] holds: what the three kinds of converter
    of [option_spec] return. *)
Inductive optval : Type :=
| OText (s : str)
| OList (l : list str)
| ODict (d : list (str * str)).

Definition options := list (str * optval).

Inductive converter : Type :=
| by_convert_to_list
| by_unchanged
| by_from_json_to_dict.

(** [ServiceDirective.option_spec] *)
Definition option_spec : list (str * converter) :=
  [ (lit "modules", by_convert_to_list);
    (lit "app", by_unchanged);
    (lit "service", by_unchanged);
    (lit "services", by_convert_to_list);
    (lit "ignore", by_convert_to_list);
    (lit "ignore-methods", by_convert_to_list);
    (lit "docstring-replace", by_from_json_to_dict);
    (lit "title-replace", by_from_json_to_dict) ].

Definition convert (json_loads : str -> result (list (str * str)))
    (c : converter) (argument : option str) : result optval :=
  match c with
  | by_convert_to_list => OK (OList (convert_to_list argument))
  | by_unchanged => OK (OText (unchanged argument))
  | by_from_json_to_dict =>
      (d <- from_json_to_dict json_loads argument ;; OK (ODict d))%py
  end.

(** Modelled from the spec: the host's option parser, which is not part
    of this module.  It fills [self.options] from the options written in
    the directive, in order: a name that [option_spec] does not declare
    is refused, as is a name given twice, and the declared converter is
    applied to the argument. *)
Fixpoint parse_options (json_loads : str -> result (list (str * str)))
    (written : list (str * option str)) (acc : options) : result options :=
  match written with
  | [] => OK acc
  | (name, argument) :: written' =>
      match lookup name option_spec with
      | None => Raise (KeyError name)
      | Some c =>
          match lookup name acc with
          | Some _ => Raise (ExternalError (lit "duplicate option"))
          | None =>
              (v <- convert json_loads c argument ;;
               parse_options json_loads written' (acc ++ [(name, v)]))%py
          end
      end
  end.

(** Reading [self.options] with the shape the reader expects.  The
    converters of [option_spec] give every declared option one shape, so
    the [TypeError] branches are not reached from parsed options. *)
Definition get_list (opts : options) (key : string) : result (list str) :=
  match lookup (lit key) opts with
  | None => OK []
  | Some (OList l) => OK l
  | Some _ => Raise TypeError
  end.

Definition get_dict (opts : options) (key : string)
  : result (list (str * str)) :=
  match lookup (lit key) opts with
  | None => OK []
  | Some (ODict d) => OK d
  | Some _ => Raise TypeError
  end.

Definition get_text (opts : options) (key : string) : result (option str) :=
  match lookup (lit key) opts with
  | None => OK None
  | Some (OText s) => OK (Some s)
  | Some _ => Raise TypeError
  end.

(** ** Document nodes *)

Inductive tag : Type :=
| section | title | inline | bullet_list | list_item | strong | paragraph
| error
| parsed (class_name : str).

(** A node as its constructor call and the [+=] that follow build it:
    the class, the [ids] and [text] keyword arguments, the children. *)
#[warnings="-register-all"] Inductive node : Type :=
| Node (t : tag) (ids : list str) (text : option str) (children : list node).

Definition node_tag (n : node) : tag := let 'Node t _ _ _ := n in t.
Definition node_ids (n : node) : list str := let 'Node _ i _ _ := n in i.
Definition node_children (n : node) : list node :=
  let 'Node _ _ _ c := n in c.

(** [nodes.cls(text=s)] and [nodes.cls()] *)
Definition text_node (t : tag) (s : str) : node := Node t [] (Some s) [].
Definition empty_node (t : tag) : node := Node t [] None [].

(** [parent += child]; adding [None] changes nothing. *)
Definition add (parent : node) (child : option node) : node :=
  match child with
  | None => parent
  | Some c =>
      let 'Node t i x cs := parent in Node t i x (cs ++ [c])
  end.

Definition add_all (parent : node) (children : list node) : node :=
  fold_left (fun p c => add p (Some c)) children parent.

(** ** Services *)

(** A view or validator: [is_string(obj)] holds and [obj] is a name, or
    [obj] is an object, of which only [__doc__] is read. *)
Inductive handler : Type :=
| named (s : str)
| object (doc : option str).

(** A class as [getattr] sees it: attribute names, each with the
    [__doc__] of the attribute. *)
Definition class_attrs := list (str * option str).

(** [args['accept']]: one content type, or a list or tuple of them.  A
    content type is represented by the text shown for it. *)
Inductive accept_value : Type :=
| accept_one (item : str)
| accept_seq (items : list str).

(** [cornice.util.to_list] *)
Definition to_list (a : accept_value) : list str :=
  match a with
  | accept_one item => [item]
  | accept_seq items => items
  end.

Section Data.

Variables V Sch : Type.

(** A schema child.  [attr_location], [attr_type] and [attr_typ] are
    [None] when [hasattr] is false; [attr_type] may be present and hold
    [None]; [attr_typ] is [typ.__class__.__name__]. *)
Record attr : Type := {
  attr_name : str;
  attr_location : option str;
  attr_type : option (option str);
  attr_typ : option str;
  attr_required : bool;
  attr_missing : option V;
  attr_description : option str
}.

(** The [args] mapping of a definition: a field is [None] when the key
    is absent. *)
Record args : Type := {
  klass : option class_attrs;
  schema : option Sch;
  validators : option (list handler);
  accept : option accept_value;
  renderer : option str
}.

Definition definition : Type := str * handler * args.

Record service : Type := {
  name : str;
  path : str;
  description : option str;
  definitions : list definition
}.

(** The process-wide state the directive works on: the registry
    [cornice.service.SERVICES], the module cache [MODULES] and the serial
    number the environment hands out next. *)
Record world : Type := {
  SERVICES : list service;
  MODULES : list str;
  serialno : nat
}.

End Data.

Arguments attr_name {V} _.
Arguments attr_location {V} _.
Arguments attr_type {V} _.
Arguments attr_typ {V} _.
Arguments attr_required {V} _.
Arguments attr_missing {V} _.
Arguments attr_description {V} _.
Arguments klass {Sch} _.
Arguments schema {Sch} _.
Arguments validators {Sch} _.
Arguments accept {Sch} _.
Arguments renderer {Sch} _.
Arguments name {Sch} _.
Arguments path {Sch} _.
Arguments description {Sch} _.
Arguments definitions {Sch} _.
Arguments SERVICES {Sch} _.
Arguments MODULES {Sch} _.
Arguments serialno {Sch} _.

(** The collaborators of the renderer and of the directive. *)
Class Collaborators (V Sch : Type) : Type := {
  (** [json.dumps] *)
  json_dumps : V -> result str;
  (** [DottedNameResolver(__name__).maybe_resolve(schema)().children] *)
  schema_children : Sch -> result (list (attr V));
  (** the reStructuredText parser: the children of the parsed document *)
  rst_parse : str -> list node;
  (** [DocFieldTransformer(self).transform_all(node)], which works on the
      node in place *)
  transform_all : option node -> result (option node);
  (** [str.lower] and [str.title] *)
  str_lower : str -> str;
  str_title : str -> str;
  (** what executing a module registers: [import_module(module)],
      [reload(module)], and [import_module(app).main({})] *)
  import_module : str -> result (list (service Sch));
  reload : str -> result (list (service Sch));
  app_main : str -> result (list (service Sch))
}.

(** ** State and exceptions *)

(** A computation on the state [W] that returns or raises; the changes
    made to the state before an exception stay. *)
Definition M (W A : Type) : Type := W -> result A * W.

Definition ret {W A : Type} (a : A) : M W A := fun w => (OK a, w).

Definition lift {W A : Type} (r : result A) : M W A := fun w => (r, w).

Definition bindM {W A B : Type} (m : M W A) (k : A -> M W B) : M W B :=
  fun w =>
    match m w with
    | (OK a, w') => k a w'
    | (Raise e, w') => (Raise e, w')
    end.

Notation "x <~ m ;; k" := (bindM m (fun x => k))
  (at level 61, m at next level, right associativity) : py_scope.

Fixpoint mapM {W A B : Type} (f : A -> M W B) (xs : list A) : M W (list B) :=
  match xs with
  | [] => ret []
  | x :: xs' => (y <~ f x ;; ys <~ mapM f xs' ;; ret (y :: ys))%py
  end.

Fixpoint map_result {A B : Type} (f : A -> result B) (xs : list A)
  : result (list B) :=
  match xs with
  | [] => OK []
  | x :: xs' => (y <- f x ;; ys <- map_result f xs' ;; OK (y :: ys))%py
  end.

(** ** The registry *)

Section Registry.

Context {Sch : Type}.

(** Modelled from the spec: the registry interface of the
    service-description library, [get_services(names, exclude)].  It
    lists, in registry order, the services whose name is in [names] (all
    of them when [names] is [None]) and is not in [exclude]. *)
Definition get_services (names exclude : option (list str))
    (registry : list (service Sch)) : list (service Sch) :=
  filter (fun s =>
            match exclude with
            | Some ex => negb (mem (name s) ex)
            | None => true
            end
            && match names with
               | Some ns => mem (name s) ns
               | None => true
               end)
         registry.

(** Modelled from the spec: the registry interface of the
    service-description library, [clear_services()], which empties the
    registry. *)
Definition clear_services (w : world Sch) : world Sch :=
  {| SERVICES := []; MODULES := MODULES w; serialno := serialno w |}.

Definition register (services : list (service Sch)) (w : world Sch)
  : world Sch :=
  {| SERVICES := SERVICES w ++ services;
     MODULES := MODULES w;
     serialno := serialno w |}.

(** Modelled from the spec: the serial numbers of the host environment,
    [self.env.new_serialno('service')], which make the section
    identifiers unique: each call returns the next number. *)
Definition new_serialno : M (world Sch) nat :=
  fun w =>
    (OK (serialno w),
     {| SERVICES := SERVICES w;
        MODULES := MODULES w;
        serialno := S (serialno w) |}).

End Registry.

(** ** The service renderer *)

Section Renderer.

Context {V Sch : Type} {X : Collaborators V Sch}.

(** [self.options] *)
Variable opts : options.

(** [rst2node(data, env)] *)
Definition rst2node (data : str) : option node :=
  if truthy data then
    match rst_parse data with
    | [child] => Some child
    | children => Some (add_all (empty_node paragraph) children)
    end
  else None.

(** [self._resolve_obj_to_docstring(obj, args)] *)
Definition resolve_obj_to_docstring (obj : handler) (a : args Sch)
  : result str :=
  match obj with
  | named s =>
      match klass a with
      | Some ob =>
          match lookup (str_lower s) ob with
          | Some doc => format_docstring doc
          | None => Raise (AttributeError (str_lower s))
          end
      | None => OK []
      end
  | object doc => format_docstring doc
  end.

(** [self._get_attributes(schema, location)] for [location] a text:
    [to_list(location)] is then the list of that one text. *)
Definition get_attributes (sch : Sch) (location : str)
  : result (list (attr V)) :=
  (children <- schema_children sch ;;
   OK (filter (fun a =>
                 match attr_location a with
                 | None => contains (lit "body") location
                 | Some l => mem l [location]
                 end)
              children))%py.

(** The body of [for attr in attributes]: one list item. *)
Definition render_attr (a : attr V) : result node :=
  let type_ :=
    match attr_type a with
    | Some t => t
    | None => attr_typ a
    end in
  let temp := empty_node list_item in
  let temp := add temp (Some (text_node strong (attr_name a))) in
  let temp :=
    match type_ with
    | Some t => add temp (Some (text_node inline (lit " (" ++ t ++ lit ")")))
    | None => temp
    end in
  if negb (attr_required a) || truthy (or_empty (attr_description a)) then
    let temp := add temp (Some (text_node inline (lit " - "))) in
    (temp <-
       (if negb (attr_required a) then
          match attr_missing a with
          | Some missing =>
              default <- json_dumps missing ;;
              OK (add temp (Some (text_node inline
                     (lit "(default: " ++ default ++ lit ") "))))
          | None =>
              OK (add temp (Some (text_node inline (lit "(optional) "))))
          end
        else OK temp) ;;
     OK (if truthy (or_empty (attr_description a))
         then add temp (Some (text_node inline
                                (or_empty (attr_description a))))
         else temp))%py
  else OK temp.

(** The body of [for location in ('header', 'querystring', 'body')]. *)
Definition render_location (sch : Sch) (attrs_node : node) (location : str)
  : result node :=
  (attributes <- get_attributes sch location ;;
   match attributes with
   | [] => OK attrs_node
   | _ :: _ =>
       items <- map_result render_attr attributes ;;
       let attrs_node :=
         add attrs_node
             (Some (text_node inline (lit "values in the " ++ location))) in
       let location_attrs := add_all (empty_node bullet_list) items in
       OK (add attrs_node (Some location_attrs))
   end)%py.

Definition locations : list str :=
  [lit "header"; lit "querystring"; lit "body"].

(** The [if 'schema' in args] block: the node added to the method. *)
Definition render_schema (sch : Sch) : result node :=
  fold_left (fun acc location =>
               (attrs_node <- acc ;;
                render_location sch attrs_node location)%py)
            locations (OK (empty_node inline)).

(** [for validator in args.get('validators', ())] *)
Fixpoint add_validators (vs : list handler) (a : args Sch) (docstring : str)
  : result str :=
  match vs with
  | [] => OK docstring
  | v :: vs' =>
      (d <- resolve_obj_to_docstring v a ;;
       add_validators vs' a (docstring ++ d))%py
  end.

(** The [if 'accept' in args] block.  [to_list] returns a list or a
    tuple, which is not callable, so the list of content types is what
    is rendered. *)
Definition render_accept (a : accept_value) : node :=
  let accept := to_list a in
  let accept_node := text_node strong (lit "Accepted content types:") in
  let node_accept_list :=
    add_all (empty_node bullet_list)
            (map (fun item =>
                    add (empty_node list_item) (Some (text_node inline item)))
                 accept) in
  add accept_node (Some node_accept_list).

(** The response paragraph that ends a method section. *)
Definition response_node (renderer : str) : node :=
  let renderer :=
    if str_eqb renderer (lit "simplejson") then lit "json" else renderer in
  add (empty_node paragraph)
      (Some (text_node strong (lit "Response: " ++ renderer))).

(** The body of [for method, view, args in service.definitions]:
    [None] when the loop continues without a method section. *)
Definition render_definition (service_id : str) (d : definition Sch)
  : result (option node) :=
  let '(method, view, a) := d in
  if str_eqb method (lit "HEAD") then OK None
  else
    (ignored <- get_list opts "ignore-methods" ;;
     if mem method ignored then OK None
     else
       let method_id := service_id ++ lit "-" ++ method in
       let method_node := Node section [method_id] None [] in
       let method_node := add method_node (Some (text_node title method)) in
       docstring <- resolve_obj_to_docstring view a ;;
       replacements <- get_dict opts "docstring-replace" ;;
       let docstring := replace_all replacements docstring in
       method_node <-
         match schema a with
         | Some sch =>
             attrs_node <- render_schema sch ;;
             OK (add method_node (Some attrs_node))
         | None => OK method_node
         end ;;
       docstring <-
         add_validators (match validators a with
                         | Some vs => vs
                         | None => []
                         end) a docstring ;;
       let method_node :=
         match accept a with
         | Some acc => add method_node (Some (render_accept acc))
         | None => method_node
         end in
       node <- transform_all (rst2node docstring) ;;
       let method_node := add method_node node in
       renderer <-
         match renderer a with
         | Some r => OK r
         | None => Raise (KeyError (lit "renderer"))
         end ;;
       OK (Some (add method_node (Some (response_node renderer)))))%py.

Fixpoint render_definitions (service_id : str) (defs : list (definition Sch))
    (service_node : node) : result node :=
  match defs with
  | [] => OK service_node
  | d :: defs' =>
      (method_node <- render_definition service_id d ;;
       render_definitions service_id defs' (add service_node method_node))%py
  end.

(** [self._render_service(service)], once the serial number is drawn. *)
Definition render_service_as (service_id : str) (s : service Sch)
  : result node :=
  let service_node := Node section [service_id] None [] in
  (replacements <- get_dict opts "title-replace" ;;
   let title_text :=
     replace_all replacements
                 (str_title (name s) ++ lit " service at " ++ path s) in
   let service_node := add service_node (Some (text_node title title_text)) in
   service_node <-
     match description s with
     | Some d =>
         t <- trim (Some d) ;;
         OK (add service_node (rst2node t))
     | None => OK service_node
     end ;;
   render_definitions service_id (definitions s) service_node)%py.

(** [self._render_service(service)] *)
Definition render_service (s : service Sch) : M (world Sch) node :=
  (n <~ new_serialno ;;
   lift (render_service_as (lit "service-" ++ decimal (Z.of_nat n)) s))%py.

(** [for module in self.options.get('modules', [])] *)
Fixpoint import_modules (modules : list str) : M (world Sch) unit :=
  match modules with
  | [] => ret tt
  | module :: modules' =>
      bindM (fun w =>
               if mem module (MODULES w) then
                 match reload module with
                 | OK registered => (OK tt, register registered w)
                 | Raise e => (Raise e, w)
                 end
               else
                 match import_module module with
                 | OK registered =>
                     (OK tt,
                      let w' := register registered w in
                      {| SERVICES := SERVICES w';
                         MODULES := MODULES w' ++ [module];
                         serialno := serialno w' |})
                 | Raise e => (Raise e, w)
                 end)
            (fun _ => import_modules modules')
  end.

(** [self.options.get(key)] for an option read as a list of names. *)
Definition get_names (key : string) : result (option (list str)) :=
  match lookup (lit key) opts with
  | None => OK None
  | Some (OList l) => OK (Some l)
  | Some _ => Raise TypeError
  end.

(** The services [run] asks the registry for. *)
Definition selected_services (names : list str) (exclude : option (list str))
    (w : world Sch) : list (service Sch) :=
  get_services (match names with [] => None | _ :: _ => Some names end)
               exclude (SERVICES w).

(** The first half of [run]: the application entry point and the
    modules are executed, which fills the registry. *)
Definition load_services : M (world Sch) unit :=
  (app_name <~ lift (get_text opts "app") ;;
   _ <~ match app_name with
        | Some ((_ :: _) as a) =>
            fun w =>
              match app_main a with
              | OK registered => (OK tt, register registered w)
              | Raise e => (Raise e, w)
              end
        | _ => ret tt
        end ;;
   modules <~ lift (get_list opts "modules") ;;
   import_modules modules)%py.

(** The names [run] passes to the registry: [services] with [service]
    appended.  The list is the one [self.options] holds; [run] does not
    read that option again. *)
Definition selection : result (list str) :=
  (names <- get_list opts "services" ;;
   service <- get_text opts "service" ;;
   OK (match service with
       | Some s => names ++ [s]
       | None => names
       end))%py.

(** [ServiceDirective.run(self)] *)
Definition run : M (world Sch) (list node) :=
  (_ <~ load_services ;;
   names <~ lift selection ;;
   exclude <~ lift (get_names "exclude") ;;
   services <~ (fun w => (OK (selected_services names exclude w), w)) ;;
   _ <~ (fun w => (OK tt, clear_services w)) ;;
   mapM render_service services)%py.

(** The nodes [run] returns for the services [services] when the next
    serial number is [n]. *)
Definition render_all (services : list (service Sch)) (n : nat)
  : result (list node) :=
  fst (mapM render_service services
            {| SERVICES := []; MODULES := []; serialno := n |}).

End Renderer.

(** ** The inline code executor *)

(** An exception raised by the executed code: whether its class derives
    from [Exception], and [str] of it. *)
Record py_exception : Type := {
  is_Exception : bool;
  exc_str : str
}.

Inductive exec_outcome : Type :=
| Completed
| Raised (e : py_exception).

(** Objects a stream reference may point to: an in-memory buffer with
    its contents, or an object of another class. *)
Inductive stream_object : Type :=
| StringIO (contents : str)
| other_object (class_name : str).

(** The process as the executor sees it: the object [sys.stdout] is
    bound to (an index into the heap), the heap of stream objects, and
    the rest of the interpreter state. *)
Record process (A : Type) : Type := {
  sys_stdout : nat;
  heap : list stream_object;
  ambient : A
}.
Arguments sys_stdout {A} _.
Arguments heap {A} _.
Arguments ambient {A} _.

(** What [run] amounts to for its caller. *)
Inductive run_result : Type :=
| Returned (nodes : list node)
| Propagated (e : py_exception).

(** The collaborators of the executor: the interpreter and the host's
    state machine [SM]. *)
Class Interpreter (A SM : Type) : Type := {
  (** [exec(source)] *)
  py_exec : str -> process A -> exec_outcome * process A;
  (** [self.state_machine.input_offset] *)
  input_offset : SM -> Z;
  (** [self.state_machine.input_lines.source(i)] *)
  source_at : SM -> Z -> str;
  (** [statemachine.string2lines(text, tab_width, convert_whitespace=True)] *)
  string2lines : str -> Z -> list str;
  (** [self.state_machine.insert_input(lines, source)] *)
  insert_input : SM -> list str -> str -> SM
}.

Record exec_directive : Type := {
  content : list str;
  lineno : Z;
  exec_options : list (str * Z);
  settings_tab_width : Z
}.

Section Executor.

Context {A SM : Type} {I : Interpreter A SM}.

(** [sys.stdout = StringIO()]: a new buffer is allocated. *)
Definition redirect_stdout (p : process A) : process A :=
  {| sys_stdout := length (heap p);
     heap := heap p ++ [StringIO []];
     ambient := ambient p |}.

(** [sys.stdout = target] *)
Definition set_stdout (target : nat) (p : process A) : process A :=
  {| sys_stdout := target; heap := heap p; ambient := ambient p |}.

(** [sys.stdout.getvalue()] *)
Definition getvalue (p : process A) : result str :=
  match nth_error (heap p) (sys_stdout p) with
  | Some (StringIO contents) => OK contents
  | Some (other_object class_name) =>
      Raise (AttributeError
               (lit "'" ++ class_name ++
                lit "' object has no attribute 'getvalue'"))
  | None => Raise (AttributeError (lit "getvalue"))
  end.

Definition exn_str (e : exn) : str :=
  match e with
  | KeyError k => lit "'" ++ k ++ lit "'"
  | AttributeError m => m
  | ValueError m => m
  | ExternalError m => m
  | IndexError => lit "list index out of range"
  | TypeError => []
  end.

(** The node list of the [except Exception] clause. *)
Definition error_nodes (source : str) (line : Z) (message : str)
  : list node :=
  [Node error [] None
        [text_node paragraph
           (lit "Unable to execute python code at " ++ basename source ++
            lit ":" ++ decimal line ++ lit ":");
         text_node paragraph message]].

(** [ExecDirective.run(self)] *)
Definition exec_run (d : exec_directive) (sm : SM) (p : process A)
  : run_result * SM * process A :=
  let oldStdout := sys_stdout p in
  let p := redirect_stdout p in
  let tab_width :=
    match lookup (lit "tab-width") (exec_options d) with
    | Some w => w
    | None => settings_tab_width d
    end in
  let source := source_at sm (lineno d - input_offset sm - 1)%Z in
  (* try *)
  let '(outcome, p) := py_exec (join [LF] (content d)) p in
  let '(result, sm) :=
    match outcome with
    | Completed =>
        match getvalue p with
        | OK text =>
            let lines := string2lines text tab_width in
            (Returned [], insert_input sm lines source)
        | Raise e =>
            (* except Exception *)
            (Returned (error_nodes source (lineno d) (exn_str e)), sm)
        end
    | Raised e =>
        if is_Exception e
        then (* except Exception *)
          (Returned (error_nodes source (lineno d) (exc_str e)), sm)
        else (Propagated e, sm)
    end in
  (* finally *)
  (result, sm, set_stdout oldStdout p).

End Executor.

(** Specification vocabulary for [trim]: the number of leading whitespace
    characters of a line, blank lines, and what it means for [k] to be
    the indentation shared by the lines after the first. *)
Fixpoint indentation (line : str) : nat :=
  match line with
  | c :: line' => if is_space c then S (indentation line') else 0
  | [] => 0
  end.

Definition blank (line : str) : bool := forallb is_space line.

Definition common_indent (k : nat) (lines : list str) : Prop :=
  (forall l, In l lines -> blank l = false -> k <= indentation l) /\
  (exists l, In l lines /\ blank l = false /\ indentation l = k).

(** [out] is [lines] without the empty lines at its two ends. *)
Definition blank_ends_removed (lines out : list str) : Prop :=
  exists a b,
    lines = a ++ out ++ b /\
    Forall (fun l => l = []) a /\ Forall (fun l => l = []) b /\
    hd_error out <> Some [] /\ hd_error (rev out) <> Some [].

(** Specification vocabulary for the schema block of a method section,
    following the description of the rendered list: under which
    location a field is listed, and what one item holds. *)
Section SchemaSpec.

Context {V Sch : Type} {X : Collaborators V Sch}.

Definition listed_under (location : str) (a : attr V) : bool :=
  match attr_location a with
  | None => str_eqb location (lit "body")
  | Some l => str_eqb l location
  end.

Definition described (a : attr V) : bool :=
  truthy (or_empty (attr_description a)).

(** The type shown for a field, when one can be determined. *)
Definition shown_type (a : attr V) : option str :=
  match attr_type a with
  | Some t => t
  | None => attr_typ a
  end.

(** What follows the name and the type in an item: nothing for a
    required field with no description; the description alone for a
    required field that has one; for a field that is not required, the
    default (or the word optional) and then the description if any. *)
Definition item_suffix (a : attr V) : result (list node) :=
  if attr_required a then
    OK (if described a
        then [text_node inline (lit " - ");
              text_node inline (or_empty (attr_description a))]
        else [])
  else
    (marker <-
       match attr_missing a with
       | Some missing =>
           default <- json_dumps missing ;;
           OK (lit "(default: " ++ default ++ lit ") ")
       | None => OK (lit "(optional) ")
       end ;;
     OK ([text_node inline (lit " - "); text_node inline marker] ++
         if described a
         then [text_node inline (or_empty (attr_description a))]
         else []))%py.

Definition item (a : attr V) : result node :=
  (suffix <- item_suffix a ;;
   OK (Node list_item [] None
         ([text_node strong (attr_name a)] ++
          match shown_type a with
          | Some t => [text_node inline (lit " (" ++ t ++ lit ")")]
          | None => []
          end ++
          suffix)))%py.

(** The nodes one location contributes: a caption and a bulleted list,
    or nothing when no field is listed under it. *)
Definition location_block (children : list (attr V)) (location : str)
  : result (list node) :=
  match filter (listed_under location) children with
  | [] => OK []
  | fields =>
      (items <- map_result item fields ;;
       OK [text_node inline (lit "values in the " ++ location);
           Node bullet_list [] None items])%py
  end.

Definition schema_block (children : list (attr V)) : result node :=
  (header <- location_block children (lit "header") ;;
   querystring <- location_block children (lit "querystring") ;;
   body <- location_block children (lit "body") ;;
   OK (Node inline [] None (header ++ querystring ++ body)))%py.

(** The literal reading of the description of an item, in which the
    default or the word optional is shown whenever a suffix is. *)
Definition item_suffix_as_described (a : attr V) : result (list node) :=
  if negb (attr_required a) || described a then
    (marker <-
       match attr_missing a with
       | Some missing =>
           default <- json_dumps missing ;;
           OK (lit "(default: " ++ default ++ lit ") ")
       | None => OK (lit "(optional) ")
       end ;;
     OK ([text_node inline (lit " - "); text_node inline marker] ++
         if described a
         then [text_node inline (or_empty (attr_description a))]
         else []))%py
  else OK [].


End SchemaSpec.

(** Specification vocabulary for the method sections of a service. *)
Definition kept (ignored : list str) (method : str) : bool :=
  negb (str_eqb method (lit "HEAD")) && negb (mem method ignored).


(** A method section: a section whose first child is a title. *)
Definition section_title (n : node) : option str :=
  match n with
  | Node section _ _ (Node title _ (Some t) _ :: _) => Some t
  | _ => None
  end.


(** Specification vocabulary for the directive options: the shape each
    converter gives its option, and options all of that shape. *)
Definition shape_ok (c : converter) (v : optval) : bool :=
  match c, v with
  | by_convert_to_list, OList _ => true
  | by_unchanged, OText _ => true
  | by_from_json_to_dict, ODict _ => true
  | _, _ => false
  end.

Definition declared (opts : options) : Prop :=
  forall key v, lookup key opts = Some v ->
    exists c, lookup key option_spec = Some c /\ shape_ok c v = true.


(** What executing the listed modules registers when importing a module
    and reloading it register the same services. *)
Fixpoint modules_register {V Sch : Type} {X : Collaborators V Sch}
    (modules : list str) : result (list (service Sch)) :=
  match modules with
  | [] => OK []
  | module :: modules' =>
      (r <- reload module ;;
       rs <- modules_register modules' ;;
       OK (r ++ rs))%py
  end.

(** ** An instance of the collaborators and sample data

    They serve to run the model on concrete input. *)

Definition QUOTE : char := 34%N.

Definition ascii_lower (s : str) : str :=
  map (fun c => if (65 <=? c) && (c <=? 90) then c + 32 else c)%N s.

Fixpoint ascii_title_from (previous_cased : bool) (s : str) : str :=
  match s with
  | [] => []
  | c :: s' =>
      let upper := ((65 <=? c) && (c <=? 90))%N in
      let lower := ((97 <=? c) && (c <=? 122))%N in
      (if previous_cased
       then (if upper then c + 32 else c)%N
       else (if lower then c - 32 else c)%N)
      :: ascii_title_from (upper || lower) s'
  end.

Definition sample_get : definition (list (attr str)) :=
  (lit "GET", object (Some (lit "Return the item.")),
   {| klass := None; schema := None; validators := None; accept := None;
      renderer := Some (lit "simplejson") |}).

Definition sample_head : definition (list (attr str)) :=
  (lit "HEAD", object (Some (lit "Return the item.")),
   {| klass := None; schema := None; validators := None; accept := None;
      renderer := Some (lit "simplejson") |}).

Definition sample_service : service (list (attr str)) :=
  {| name := lit "foo"; path := lit "/foo"; description := None;
     definitions := [sample_get; sample_head] |}.

#[export] Instance sample_collaborators
  : Collaborators str (list (attr str)) := {|
  json_dumps v := OK ([QUOTE] ++ v ++ [QUOTE]);
  schema_children sch := OK sch;
  rst_parse s := [text_node (parsed (lit "paragraph")) s];
  transform_all n := OK n;
  str_lower := ascii_lower;
  str_title := ascii_title_from false;
  import_module m :=
    if str_eqb m (lit "app.views") then OK [sample_service]
    else Raise (ExternalError (lit "No module named " ++ m));
  reload m :=
    if str_eqb m (lit "app.views") then OK [sample_service]
    else Raise (ExternalError (lit "No module named " ++ m));
  app_main m := Raise (ExternalError (lit "No module named " ++ m))
|}.

(** [json.loads] for the samples: every argument is read as the empty
    object. *)
Definition sample_json_loads (a : str) : result (list (str * str)) := OK [].



(** A required schema field with a description. *)
Definition sample_required_field : attr str :=
  {| attr_name := lit "foo"; attr_location := None; attr_type := None;
     attr_typ := Some (lit "String"); attr_required := true;
     attr_missing := None; attr_description := Some (lit "The foo.") |}.

(** A schema field that is not required and has a default. *)
Definition sample_optional_field : attr str :=
  {| attr_name := lit "bar"; attr_location := Some (lit "querystring");
     attr_type := None; attr_typ := Some (lit "Integer");
     attr_required := false; attr_missing := Some (lit "1");
     attr_description := None |}.

(** A definition with a view given by name, a schema, validators and
    accepted content types. *)
Definition sample_put_args : args (list (attr str)) :=
  {| klass := Some [(lit "put", Some (lit "Update the item."))];
     schema := Some [sample_required_field; sample_optional_field];
     validators := Some [object None; named (lit "put")];
     accept := Some (accept_seq [lit "application/json"]);
     renderer := Some (lit "xml") |}.

Definition sample_put : definition (list (attr str)) :=
  (lit "PUT", named (lit "PUT"), sample_put_args).

(** A docstring with tabs, blank lines and trailing whitespace. *)
Definition sample_indented : str :=
  lit "Summary." ++ [LF] ++ [LF] ++
  [TAB] ++ lit "details  " ++ [LF] ++
  [TAB] ++ lit "  more" ++ [LF] ++
  [TAB].

Definition sample_world (registry : list (service (list (attr str))))
  : world (list (attr str)) :=
  {| SERVICES := registry; MODULES := []; serialno := 0 |}.

(** The options [:ignore: foo] and [:modules: app.views] as written. *)
Definition sample_ignore_foo : list (str * option str) :=
  [(lit "ignore", Some (lit "foo"))].

Definition sample_modules : list (str * option str) :=
  [(lit "modules", Some (lit "app.views"))].

Definition parsed_or_empty (written : list (str * option str)) : options :=
  match parse_options sample_json_loads written [] with
  | OK opts => opts
  | Raise _ => []
  end.

(** A docstring with trailing whitespace on its second line. *)
Definition sample_trailing : str :=
  lit "a" ++ [LF] ++ lit "  b  " ++ [LF] ++ lit "  c".

(** A docstring whose first line is blank. *)
Definition sample_docstring : str :=
  [LF] ++ lit "    a" ++ [LF] ++ lit "      b".

(** An interpreter for three snippets; any other source completes with
    no output.  Output is appended to the buffer [sys.stdout] is bound
    to. *)
Definition write_stdout {A : Type} (text : str) (p : process A)
  : process A :=
  {| sys_stdout := sys_stdout p;
     heap := map (fun io =>
                    if Nat.eqb (fst io) (sys_stdout p) then
                      match snd io with
                      | StringIO contents => StringIO (contents ++ text)
                      | o => o
                      end
                    else snd io)
                 (combine (seq 0 (length (heap p))) (heap p));
     ambient := ambient p |}.

#[export] Instance sample_interpreter : Interpreter unit (list str) := {|
  py_exec source p :=
    if str_eqb source (lit "print('hi')")
    then (Completed, write_stdout (lit "hi" ++ [LF]) p)
    else if str_eqb source (lit "raise ValueError('bad')")
    then (Raised {| is_Exception := true; exc_str := lit "bad" |}, p)
    else if str_eqb source (lit "raise SystemExit('bye')")
    then (Raised {| is_Exception := false; exc_str := lit "bye" |}, p)
    else (Completed, p);
  input_offset sm := 0%Z;
  source_at sm i := lit "/docs/source/api.rst";
  string2lines text tab_width := map rstrip (splitlines (expandtabs text));
  insert_input sm lines source := sm ++ lines
|}.

Definition sample_process : process unit :=
  {| sys_stdout := 0; heap := [other_object (lit "TextIOWrapper")];
     ambient := tt |}.

Definition sample_exec (source : string) : exec_directive :=
  {| content := [lit source]; lineno := 12; exec_options := [];
     settings_tab_width := 8 |}.

(** Two auxiliary functions that describe one step of [splitlines]:
    what remains to be split after the boundary character [c], and a
    character put in front of the first line. *)
Definition after_break (c : char) (s : str) : str :=
  match s with
  | c' :: s'' => if N.eqb c CR && N.eqb c' LF then s'' else s
  | [] => []
  end.

Definition cons_first (c : char) (ls : list str) : list str :=
  match ls with
  | [] => [[c]]
  | l :: ls' => (c :: l) :: ls'
  end.

(** The characters of a text that are not whitespace, in order. *)
Definition text_of (s : str) : str := filter (fun c => negb (is_space c)) s.

(** The identifier [run] gives the section of the service that draws
    the serial number [i]. *)
Definition service_id_of (i : nat) : str :=
  lit "service-" ++ decimal (Z.of_nat i).

(** The services [run] renders for the names [names]: all of them when
    no name is given. *)
Definition named_in {Sch : Type} (names : list str) (s : service Sch)
  : bool :=
  match names with
  | [] => true
  | _ :: _ => mem (name s) names
  end.

(** ** The field type map of the directive *)

(** A doc field as [get_field_type_map] reads it: its [names], whether
    it [is_typed], and its [typenames], which are read for a typed field
    only. *)
Record field : Type := {
  field_names : list str;
  is_typed : bool;
  typenames : list str
}.

(** [d[key] = value]: the value of a key that is present is replaced in
    place, a new key comes last. *)
Fixpoint set_item {A : Type} (key : str) (value : A) (d : list (str * A))
  : list (str * A) :=
  match d with
  | [] => [(key, value)]
  | (k, v) :: d' =>
      if str_eqb key k then (k, value) :: d'
      else (k, v) :: set_item key value d'
  end.

Definition field_type_map : Type := list (str * (field * bool)).

(** The body of [for field in self.doc_field_types]. *)
Definition add_field (m : field_type_map) (f : field) : field_type_map :=
  let m :=
    fold_left (fun m name => set_item name (f, false) m) (field_names f) m in
  if is_typed f
  then fold_left (fun m name => set_item name (f, true) m) (typenames f) m
  else m.

(** [ServiceDirective.get_field_type_map(self)] for the fields
    [doc_field_types]: the map returned and the value of
    [self._doc_field_type_map] afterwards. *)
Definition get_field_type_map (doc_field_types : list field)
    (cached : field_type_map) : field_type_map * field_type_map :=
  let cached :=
    match cached with
    | [] => fold_left add_field doc_field_types []
    | _ :: _ => cached
    end in
  (cached, cached).

(** What an entry of the map says about the fields it was built from. *)
Definition entry_of (fields : list field) (key : str) (e : field * bool)
  : Prop :=
  In (fst e) fields /\
  if snd e
  then is_typed (fst e) = true /\ In key (typenames (fst e))
  else In key (field_names (fst e)).

(** A field with two names and a type name, and an untyped field that
    reuses one of the names. *)
Definition sample_typed_field : field :=
  {| field_names := [lit "param"; lit "arg"]; is_typed := true;
     typenames := [lit "type"] |}.

Definition sample_plain_field : field :=
  {| field_names := [lit "returns"; lit "arg"]; is_typed := false;
     typenames := [] |}.

(** * Properties *)

(** ** Characters and the [str] methods *)

Lemma str_eqb_eq (a b : str) : str_eqb a b = true <-> a = b.
Proof.
  revert b; induction a as [|x a IH]; intros [|y b]; simpl;
    try (split; [discriminate|discriminate]); try tauto.
  rewrite andb_true_iff, N.eqb_eq, IH. split.
  - intros [-> ->]; reflexivity.
  - intros H; injection H as -> ->; auto.
Qed.

Lemma str_eqb_refl (a : str) : str_eqb a a = true.
Proof. now apply str_eqb_eq. Qed.

Lemma linebreak_is_space (c : char) :
  is_linebreak c = true -> is_space c = true.
Proof.
  unfold is_linebreak, is_space.
  rewrite !orb_true_iff, !andb_true_iff, !N.leb_le, !N.eqb_eq. lia.
Qed.

Lemma tab_is_space (c : char) : is_tab c = true -> is_space c = true.
Proof.
  unfold is_tab. rewrite N.eqb_eq. intros ->. reflexivity.
Qed.

Lemma tab_not_linebreak (c : char) : is_tab c = true -> is_linebreak c = false.
Proof.
  unfold is_tab. rewrite N.eqb_eq. intros ->. reflexivity.
Qed.

(** *** [lstrip], [rstrip], [strip] *)

Lemma lstrip_blank (s : str) : blank s = true <-> lstrip s = [].
Proof.
  unfold blank. induction s as [|c s IH]; simpl.
  - tauto.
  - destruct (is_space c); simpl; [exact IH|]. split; discriminate.
Qed.

Lemma truthy_lstrip (s : str) : truthy (lstrip s) = negb (blank s).
Proof.
  destruct (blank s) eqn:E.
  - apply lstrip_blank in E. now rewrite E.
  - destruct (lstrip s) eqn:L; [|reflexivity].
    apply lstrip_blank in L. congruence.
Qed.

Lemma lstrip_skipn (s : str) : lstrip s = skipn (indentation s) s.
Proof.
  induction s as [|c s IH]; simpl; [reflexivity|].
  destruct (is_space c); simpl; auto.
Qed.

Lemma indentation_le (s : str) : indentation s <= length s.
Proof.
  induction s as [|c s IH]; simpl; [lia|]. destruct (is_space c); simpl; lia.
Qed.

Lemma lstrip_length (s : str) : length (lstrip s) + indentation s = length s.
Proof.
  rewrite lstrip_skipn, length_skipn. pose proof (indentation_le s). lia.
Qed.

Lemma indentation_firstn (s : str) (k : nat) :
  k <= indentation s -> forallb is_space (firstn k s) = true.
Proof.
  revert k; induction s as [|c s IH]; intros [|k]; simpl; auto.
  destruct (is_space c); simpl; [|lia]. intros H. apply IH. lia.
Qed.

Lemma indentation_skipn (s : str) (k : nat) :
  k <= indentation s -> indentation (skipn k s) = indentation s - k.
Proof.
  revert k; induction s as [|c s IH]; intros [|k]; simpl; auto.
  - intros _. lia.
  - destruct (is_space c); simpl; [|lia]. intros H. apply IH. lia.
Qed.

Lemma blank_skipn (s : str) (k : nat) :
  k <= indentation s -> blank (skipn k s) = blank s.
Proof.
  unfold blank.
  revert k; induction s as [|c s IH]; intros [|k]; simpl; auto.
  destruct (is_space c); simpl; [|lia]. intros H. apply IH. lia.
Qed.

Lemma blank_skipn_true (s : str) (k : nat) :
  blank s = true -> blank (skipn k s) = true.
Proof.
  unfold blank.
  revert k; induction s as [|c s IH]; intros [|k]; simpl; auto.
  rewrite andb_true_iff. intros [_ H]. now apply IH.
Qed.

Lemma lstrip_idem (s : str) : lstrip (lstrip s) = lstrip s.
Proof.
  induction s as [|c s IH]; simpl; [reflexivity|].
  destruct (is_space c) eqn:E; [exact IH|]. simpl. now rewrite E.
Qed.

Lemma lstrip_app_blank (a b : str) :
  blank a = true -> lstrip (a ++ b) = lstrip b.
Proof.
  unfold blank. induction a as [|c a IH]; simpl; [reflexivity|].
  destruct (is_space c); simpl; [exact IH|discriminate].
Qed.

Lemma lstrip_app_nonblank (a b : str) :
  blank a = false -> lstrip (a ++ b) = lstrip a ++ b.
Proof.
  unfold blank. induction a as [|c a IH]; simpl; [discriminate|].
  destruct (is_space c); simpl; [exact IH|reflexivity].
Qed.

Lemma blank_rev (s : str) : blank (rev s) = blank s.
Proof.
  unfold blank. induction s as [|c s IH]; simpl; [reflexivity|].
  rewrite forallb_app, IH. simpl. rewrite andb_true_r. apply andb_comm.
Qed.

Lemma rstrip_blank (s : str) : blank s = true <-> rstrip s = [].
Proof.
  unfold rstrip. rewrite <- blank_rev, lstrip_blank. split.
  - intros ->. reflexivity.
  - intros H. apply (f_equal (@rev _)) in H. now rewrite rev_involutive in H.
Qed.

Lemma rstrip_idem (s : str) : rstrip (rstrip s) = rstrip s.
Proof.
  unfold rstrip. now rewrite rev_involutive, lstrip_idem.
Qed.

Lemma blank_lstrip (s : str) : blank (lstrip s) = blank s.
Proof.
  unfold blank. induction s as [|c s IH]; simpl; [reflexivity|].
  destruct (is_space c) eqn:E; simpl; [exact IH|]. now rewrite E.
Qed.

Lemma blank_rstrip (s : str) : blank (rstrip s) = blank s.
Proof.
  unfold rstrip. now rewrite blank_rev, blank_lstrip, blank_rev.
Qed.

(** Stripping on the right leaves the leading whitespace of a line that
    is not blank. *)
Lemma rstrip_cons_nonspace (c : char) (s : str) :
  is_space c = false -> rstrip (c :: s) = c :: rstrip s.
Proof.
  intros E. unfold rstrip. simpl.
  destruct (blank (rev s)) eqn:B.
  - rewrite lstrip_app_blank by exact B. simpl. rewrite E. simpl.
    apply lstrip_blank in B. now rewrite B.
  - rewrite lstrip_app_nonblank by exact B. now rewrite rev_app_distr.
Qed.

Lemma rstrip_cons_space (c : char) (s : str) :
  blank s = false -> rstrip (c :: s) = c :: rstrip s.
Proof.
  intros B. unfold rstrip. simpl. rewrite <- blank_rev in B.
  rewrite lstrip_app_nonblank by exact B. now rewrite rev_app_distr.
Qed.

Lemma indentation_rstrip (s : str) :
  blank s = false -> indentation (rstrip s) = indentation s.
Proof.
  induction s as [|c s IH]; [discriminate|].
  intros B. destruct (is_space c) eqn:E.
  - assert (B' : blank s = false).
    { unfold blank in *. simpl in B. now rewrite E in B. }
    rewrite rstrip_cons_space by exact B'. simpl. rewrite E. now rewrite IH.
  - rewrite rstrip_cons_nonspace by exact E. simpl. now rewrite E.
Qed.

Lemma lstrip_rstrip_comm (s : str) : lstrip (rstrip s) = rstrip (lstrip s).
Proof.
  induction s as [|c s IH]; [reflexivity|].
  destruct (is_space c) eqn:E.
  - destruct (blank s) eqn:B.
    + assert (Bc : blank (c :: s) = true).
      { unfold blank in *. simpl. now rewrite E, B. }
      pose proof Bc as Bc'. apply rstrip_blank in Bc'. rewrite Bc'.
      simpl. rewrite E. apply lstrip_blank in B. rewrite B. reflexivity.
    + rewrite rstrip_cons_space by exact B. simpl. now rewrite E.
  - rewrite rstrip_cons_nonspace by exact E. simpl. rewrite E.
    now rewrite rstrip_cons_nonspace.
Qed.

Lemma strip_idem (s : str) : strip (strip s) = strip s.
Proof.
  unfold strip.
  now rewrite (lstrip_rstrip_comm (lstrip s)), lstrip_idem, rstrip_idem.
Qed.

Lemma strip_blank (s : str) : blank s = true <-> strip s = [].
Proof.
  unfold strip. rewrite <- rstrip_blank, blank_lstrip. tauto.
Qed.

(** *** [expandtabs] *)

Lemma expandtabs_from_no_tab (col : nat) (s : str) :
  Forall (fun c => is_tab c = false) (expandtabs_from col s).
Proof.
  revert col; induction s as [|c s IH]; intros col; simpl; [constructor|].
  destruct (is_tab c) eqn:E.
  - apply Forall_app; split; [|apply IH].
    apply Forall_forall. intros x Hx. apply repeat_spec in Hx. now subst.
  - constructor; [exact E|apply IH].
Qed.

Lemma expandtabs_from_id (col : nat) (s : str) :
  Forall (fun c => is_tab c = false) s -> expandtabs_from col s = s.
Proof.
  intros H; revert col; induction H as [|c s Hc _ IH]; intros col; simpl;
    [reflexivity|].
  rewrite Hc. now rewrite IH.
Qed.

Lemma expandtabs_idem (s : str) : expandtabs (expandtabs s) = expandtabs s.
Proof. apply expandtabs_from_id, expandtabs_from_no_tab. Qed.

Lemma expandtabs_nonempty (s : str) : s <> [] -> expandtabs s <> [].
Proof.
  destruct s as [|c s]; [congruence|]. intros _. unfold expandtabs. simpl.
  destruct (is_tab c); [|discriminate].
  change (0 mod 8) with 0. simpl. discriminate.
Qed.

Lemma expandtabs_from_blank (col : nat) (s : str) :
  blank s = true -> blank (expandtabs_from col s) = true.
Proof.
  unfold blank. revert col; induction s as [|c s IH]; intros col; simpl;
    [reflexivity|].
  rewrite andb_true_iff. intros [Hc Hs].
  destruct (is_tab c).
  - rewrite forallb_app, IH by exact Hs. rewrite andb_true_r.
    apply forallb_forall. intros x Hx. apply repeat_spec in Hx. now subst.
  - simpl. now rewrite Hc, IH.
Qed.

(** *** [splitlines] and [join] *)

Lemma str_length_ind (P : str -> Prop) :
  (forall s, (forall t, length t < length s -> P t) -> P s) ->
  forall s, P s.
Proof.
  intros H s. remember (length s) as n eqn:E.
  revert s E. induction n as [n IH] using lt_wf_ind.
  intros s ->. apply H. intros t Ht. now apply (IH (length t)).
Qed.

Lemma splitlines_cons (c : char) (s : str) :
  splitlines (c :: s) =
  if is_linebreak c then [] :: splitlines (after_break c s)
  else cons_first c (splitlines s).
Proof.
  simpl. destruct (is_linebreak c); [|reflexivity].
  destruct s as [|c' s'']; [reflexivity|]. simpl.
  now destruct (N.eqb c CR && N.eqb c' LF).
Qed.

Lemma after_break_length (c : char) (s : str) :
  length (after_break c s) <= length s.
Proof.
  destruct s as [|c' s'']; simpl; [lia|].
  destruct (N.eqb c CR && N.eqb c' LF); simpl; lia.
Qed.

Lemma after_break_Forall (P : char -> Prop) (c : char) (s : str) :
  Forall P s -> Forall P (after_break c s).
Proof.
  intros H. destruct s as [|c' s'']; simpl; [constructor|].
  destruct (N.eqb c CR && N.eqb c' LF); [now inversion H|exact H].
Qed.

Lemma splitlines_nonempty (s : str) : s <> [] -> splitlines s <> [].
Proof.
  destruct s as [|c s]; [congruence|]. intros _. rewrite splitlines_cons.
  destruct (is_linebreak c); [discriminate|].
  destruct (splitlines s); discriminate.
Qed.

Lemma splitlines_Forall (P : char -> Prop) (s : str) :
  Forall P s -> Forall (Forall P) (splitlines s).
Proof.
  induction s as [s IH] using str_length_ind. intros H.
  destruct s as [|c s]; [constructor|]. rewrite splitlines_cons.
  inversion H as [|? ? Hc Hs]; subst.
  destruct (is_linebreak c).
  - constructor; [constructor|]. apply IH.
    + simpl. pose proof (after_break_length c s). lia.
    + now apply after_break_Forall.
  - assert (IHs : Forall (Forall P) (splitlines s)).
    { apply IH; [simpl; lia|exact Hs]. }
    destruct (splitlines s) as [|l ls]; simpl.
    + repeat constructor. exact Hc.
    + inversion IHs; subst. constructor; [now constructor|assumption].
Qed.

Lemma splitlines_no_linebreak (s : str) :
  Forall (Forall (fun c => is_linebreak c = false)) (splitlines s).
Proof.
  induction s as [s IH] using str_length_ind.
  destruct s as [|c s]; [constructor|]. rewrite splitlines_cons.
  destruct (is_linebreak c) eqn:E.
  - constructor; [constructor|]. apply IH.
    simpl. pose proof (after_break_length c s). lia.
  - assert (IHs := IH s (Nat.lt_succ_diag_r _)).
    destruct (splitlines s) as [|l ls]; simpl.
    + repeat constructor. exact E.
    + inversion IHs; subst. constructor; [now constructor|assumption].
Qed.

Lemma splitlines_length (s : str) :
  Forall (fun l => length l <= length s) (splitlines s).
Proof.
  induction s as [s IH] using str_length_ind.
  destruct s as [|c s]; [constructor|]. rewrite splitlines_cons.
  destruct (is_linebreak c) eqn:E.
  - constructor; [simpl; lia|].
    pose proof (after_break_length c s) as L.
    eapply Forall_impl; [|apply IH; simpl; lia].
    simpl. intros l Hl. lia.
  - assert (IHs := IH s (Nat.lt_succ_diag_r _)).
    destruct (splitlines s) as [|l ls]; simpl.
    + constructor; [simpl; lia|constructor].
    + inversion IHs; subst. constructor; [simpl; lia|].
      eapply Forall_impl; [|eassumption]. simpl. intros; lia.
Qed.

Lemma splitlines_line (p r : str) :
  Forall (fun c => is_linebreak c = false) p ->
  splitlines (p ++ LF :: r) = p :: splitlines r.
Proof.
  induction 1 as [|c p Hc _ IH]; simpl app.
  - rewrite splitlines_cons. change (is_linebreak LF) with true. cbv iota.
    destruct r as [|c' r']; reflexivity.
  - rewrite splitlines_cons, Hc, IH. reflexivity.
Qed.

Lemma splitlines_single (p : str) :
  Forall (fun c => is_linebreak c = false) p -> p <> [] ->
  splitlines p = [p].
Proof.
  induction 1 as [|c p Hc Hp IH]; [congruence|]. intros _.
  rewrite splitlines_cons, Hc.
  destruct p as [|c' p']; [reflexivity|].
  rewrite IH by discriminate. reflexivity.
Qed.

Lemma join_cons (sep p : str) (ps : list str) :
  ps <> [] -> join sep (p :: ps) = p ++ sep ++ join sep ps.
Proof. destruct ps; [congruence|reflexivity]. Qed.

Lemma splitlines_join (L : list str) :
  Forall (Forall (fun c => is_linebreak c = false)) L ->
  L <> [] -> last L [] <> [] ->
  splitlines (join [LF] L) = L.
Proof.
  induction 1 as [|p L Hp HL IH]; [intros H; now destruct H|].
  intros _ Hlast.
  destruct L as [|q L'].
  - simpl in *. now apply splitlines_single.
  - rewrite join_cons by discriminate. simpl app.
    rewrite splitlines_line by exact Hp. f_equal.
    apply IH; [discriminate|exact Hlast].
Qed.

Lemma join_Forall (P : char -> Prop) (sep : str) (L : list str) :
  Forall P sep -> Forall (Forall P) L -> Forall P (join sep L).
Proof.
  intros Hsep. induction 1 as [|p L Hp HL IH]; [constructor|].
  destruct L as [|q L']; [exact Hp|].
  rewrite join_cons by discriminate.
  apply Forall_app; split; [exact Hp|]. apply Forall_app; split; assumption.
Qed.

Lemma join_nonempty (sep p : str) (ps : list str) :
  p <> [] -> join sep (p :: ps) <> [].
Proof.
  intros Hp. destruct ps as [|q ps]; [exact Hp|].
  rewrite join_cons by discriminate. destruct p; [congruence|discriminate].
Qed.

(** Characters are only dropped by the stripping methods and by slices. *)
Lemma lstrip_Forall (P : char -> Prop) (s : str) :
  Forall P s -> Forall P (lstrip s).
Proof.
  induction 1 as [|c s Hc Hs IH]; simpl; [constructor|].
  destruct (is_space c); [exact IH|now constructor].
Qed.

Lemma rstrip_Forall (P : char -> Prop) (s : str) :
  Forall P s -> Forall P (rstrip s).
Proof.
  intros H. unfold rstrip. apply Forall_rev, lstrip_Forall, Forall_rev, H.
Qed.

Lemma strip_Forall (P : char -> Prop) (s : str) :
  Forall P s -> Forall P (strip s).
Proof. intros H. now apply rstrip_Forall, lstrip_Forall. Qed.

Lemma skipn_Forall (P : char -> Prop) (k : nat) (s : str) :
  Forall P s -> Forall P (skipn k s).
Proof.
  intros H. rewrite <- (firstn_skipn k s) in H.
  now apply Forall_app in H.
Qed.

(** *** The minimum-indentation loop *)

Lemma indent_step_spec (i : Z) (l : str) :
  indent_step i l =
  if blank l then i else Z.min i (Z.of_nat (indentation l)).
Proof.
  unfold indent_step. rewrite truthy_lstrip.
  destruct (blank l); simpl; [reflexivity|].
  f_equal. pose proof (lstrip_length l). lia.
Qed.

Lemma fold_indent_le_init (ls : list str) (i : Z) :
  (fold_left indent_step ls i <= i)%Z.
Proof.
  revert i; induction ls as [|l ls IH]; intros i; simpl; [lia|].
  specialize (IH (indent_step i l)). rewrite indent_step_spec in *.
  destruct (blank l); lia.
Qed.

Lemma fold_indent_lower (ls : list str) (i : Z) (l : str) :
  In l ls -> blank l = false ->
  (fold_left indent_step ls i <= Z.of_nat (indentation l))%Z.
Proof.
  revert i; induction ls as [|x ls IH]; intros i; simpl; [tauto|].
  intros [->|H] B.
  - pose proof (fold_indent_le_init ls (indent_step i l)) as L.
    assert (indent_step i l <= Z.of_nat (indentation l))%Z
      by (rewrite indent_step_spec, B; lia).
    lia.
  - now apply IH.
Qed.

Lemma fold_indent_attained (ls : list str) (i : Z) :
  fold_left indent_step ls i = i \/
  exists l, In l ls /\ blank l = false /\
            fold_left indent_step ls i = Z.of_nat (indentation l).
Proof.
  revert i; induction ls as [|x ls IH]; intros i; simpl; [now left|].
  destruct (IH (indent_step i x)) as [E|(l & Hl & B & E)].
  - rewrite E. rewrite indent_step_spec.
    destruct (blank x) eqn:B; [now left|].
    destruct (Z.min_spec i (Z.of_nat (indentation x))) as [[_ M]|[_ M]];
      rewrite M; [now left|].
    right. exists x. rewrite indent_step_spec, B, M in E. auto.
  - right. exists l. auto.
Qed.

Lemma fold_indent_all_blank (ls : list str) (i : Z) :
  (forall l, In l ls -> blank l = true) -> fold_left indent_step ls i = i.
Proof.
  revert i; induction ls as [|x ls IH]; intros i H; simpl; [reflexivity|].
  rewrite indent_step_spec, (H x) by now left.
  apply IH. intros l Hl. apply H. now right.
Qed.

Lemma min_indent_common (k : nat) (rest : list str) :
  common_indent k rest -> (Z.of_nat k < sys_maxsize)%Z ->
  min_indent rest = Z.of_nat k.
Proof.
  intros [Hlow (l0 & Hin & B0 & E0)] Hk. unfold min_indent.
  pose proof (fold_indent_lower rest sys_maxsize l0 Hin B0) as Hle.
  destruct (fold_indent_attained rest sys_maxsize) as [E|(l & Hl & B & E)].
  - rewrite E in Hle. lia.
  - rewrite E in *. specialize (Hlow l Hl B). lia.
Qed.

(** When the loop has found an indentation, some line that is not blank
    has exactly that indentation and no such line has less. *)
Lemma min_indent_found (rest : list str) :
  (min_indent rest < sys_maxsize)%Z ->
  common_indent (Z.to_nat (min_indent rest)) rest.
Proof.
  intros Hlt. unfold min_indent in *.
  destruct (fold_indent_attained rest sys_maxsize) as [E|(l & Hl & B & E)];
    [lia|].
  split.
  - intros x Hx Bx. pose proof (fold_indent_lower rest sys_maxsize x Hx Bx).
    lia.
  - exists l. repeat split; auto. rewrite E. lia.
Qed.

(** *** Removing the empty lines at both ends *)

Lemma pop_leading_nonempty_head (x : str) (l : list str) :
  x <> [] -> pop_leading (x :: l) = x :: l.
Proof. destruct x; [congruence|reflexivity]. Qed.

Lemma pop_leading_spec (l : list str) :
  exists a, l = a ++ pop_leading l /\ Forall (fun x => x = []) a /\
            hd_error (pop_leading l) <> Some [].
Proof.
  induction l as [|x l (a & E & Ha & Hh)].
  - exists []. simpl. repeat split; [constructor|discriminate].
  - destruct x as [|c x].
    + exists ([] :: a). simpl. repeat split; auto. now f_equal.
    + exists []. simpl. repeat split; [constructor|discriminate].
Qed.

Lemma pop_leading_idem (l : list str) :
  pop_leading (pop_leading l) = pop_leading l.
Proof.
  induction l as [|x l IH]; [reflexivity|]. destruct x; [exact IH|reflexivity].
Qed.

Lemma pop_leading_app_last (a : list str) (x : str) :
  x <> [] -> pop_leading (a ++ [x]) = pop_leading a ++ [x].
Proof.
  intros Hx. induction a as [|y a IH]; simpl.
  - destruct x; [congruence|reflexivity].
  - destruct y; [exact IH|reflexivity].
Qed.

Lemma pop_leading_In (x : str) (l : list str) :
  In x l -> x <> [] -> In x (pop_leading l).
Proof.
  intros H Hx. induction l as [|y l IH]; [exact H|].
  destruct y as [|c y]; [|exact H]. simpl.
  destruct H as [<-|H]; [congruence|auto].
Qed.

Lemma pop_trailing_cons (x : str) (l : list str) :
  x <> [] -> pop_trailing (x :: l) = x :: pop_trailing l.
Proof.
  intros Hx. unfold pop_trailing. simpl.
  rewrite pop_leading_app_last by exact Hx.
  now rewrite rev_app_distr.
Qed.

Lemma pop_trailing_idem (l : list str) :
  pop_trailing (pop_trailing l) = pop_trailing l.
Proof.
  unfold pop_trailing. now rewrite rev_involutive, pop_leading_idem.
Qed.

Lemma pop_trailing_In (x : str) (l : list str) :
  In x l -> x <> [] -> In x (pop_trailing l).
Proof.
  intros H Hx. unfold pop_trailing. apply in_rev.
  rewrite rev_involutive. apply pop_leading_In; [|exact Hx].
  now apply in_rev in H.
Qed.

Lemma pop_trailing_spec (l : list str) :
  exists b, l = pop_trailing l ++ b /\ Forall (fun x => x = []) b /\
            hd_error (rev (pop_trailing l)) <> Some [].
Proof.
  destruct (pop_leading_spec (rev l)) as (a & E & Ha & Hh).
  exists (rev a). unfold pop_trailing. repeat split.
  - rewrite <- rev_app_distr, <- E. now rewrite rev_involutive.
  - now apply Forall_rev.
  - now rewrite rev_involutive.
Qed.

Lemma pop_trailing_last (l : list str) :
  pop_trailing l <> [] -> last (pop_trailing l) [] <> [].
Proof.
  destruct (pop_trailing_spec l) as (b & _ & _ & Hh).
  destruct (pop_trailing l) as [|x m] using rev_ind; [congruence|].
  intros _. rewrite last_last. rewrite rev_app_distr in Hh. simpl in Hh.
  intros ->. now apply Hh.
Qed.

Lemma pop_blank_ends (l : list str) :
  blank_ends_removed l (pop_leading (pop_trailing l)).
Proof.
  destruct (pop_trailing_spec l) as (b & Eb & Hb & Hlast).
  destruct (pop_leading_spec (pop_trailing l)) as (a & Ea & Ha & Hhd).
  exists a, b. repeat split; auto.
  - rewrite app_assoc, <- Ea. exact Eb.
  - rewrite Ea in Hlast. rewrite rev_app_distr in Hlast.
    destruct (rev (pop_leading (pop_trailing l))); [discriminate|].
    exact Hlast.
Qed.

Lemma pop_trailing_Forall (P : str -> Prop) (l : list str) :
  Forall P l -> Forall P (pop_trailing l).
Proof.
  intros H. destruct (pop_trailing_spec l) as (b & E & _).
  rewrite E in H. now apply Forall_app in H.
Qed.

Lemma blank_Forall (s : str) :
  blank s = true <-> Forall (fun c => is_space c = true) s.
Proof. unfold blank. now rewrite forallb_forall, Forall_forall. Qed.

(** ** The docstring normaliser *)

Lemma trim_unfold (d first : str) (rest : list str) :
  d <> [] -> splitlines (expandtabs d) = first :: rest ->
  trim (Some d) =
  OK (join [LF] (pop_leading (pop_trailing
        (strip first ::
         if (min_indent rest <? sys_maxsize)%Z
         then map (fun line => rstrip (skipn (Z.to_nat (min_indent rest)) line))
                  rest
         else [])))).
Proof.
  intros Hd E. destruct d as [|c d]; [congruence|].
  unfold trim. rewrite E. reflexivity.
Qed.

(** [lines[0]] never fails in [trim]: a text that is not empty has a
    first line. *)
Lemma trim_total (d : option str) : exists t, trim d = OK t.
Proof.
  destruct d as [[|c d]|]; try (now exists []).
  assert (Hne : c :: d <> []) by discriminate.
  pose proof (splitlines_nonempty _ (expandtabs_nonempty _ Hne)) as Hl.
  destruct (splitlines (expandtabs (c :: d))) as [|first rest] eqn:E;
    [congruence|].
  rewrite (trim_unfold _ _ _ Hne E). eauto.
Qed.

Lemma trim_blank (s : str) : blank s = true -> trim (Some s) = OK [].
Proof.
  intros B. destruct s as [|c d]; [reflexivity|].
  assert (Hne : c :: d <> []) by discriminate.
  pose proof (splitlines_nonempty _ (expandtabs_nonempty _ Hne)) as Hl.
  assert (HB : Forall (Forall (fun c => is_space c = true))
                 (splitlines (expandtabs (c :: d)))).
  { apply splitlines_Forall, blank_Forall, expandtabs_from_blank, B. }
  destruct (splitlines (expandtabs (c :: d))) as [|first rest] eqn:E;
    [congruence|].
  rewrite (trim_unfold _ _ _ Hne E).
  inversion HB as [|? ? Hf Hr]; subst.
  unfold min_indent. rewrite fold_indent_all_blank.
  - change (sys_maxsize <? sys_maxsize)%Z with false. cbv iota.
    apply blank_Forall, strip_blank in Hf. rewrite Hf. reflexivity.
  - intros l Hl'. apply blank_Forall.
    rewrite Forall_forall in Hr. now apply Hr.
Qed.

Lemma trim_expandtabs (s : str) : trim (Some s) = trim (Some (expandtabs s)).
Proof.
  destruct s as [|c d]; [reflexivity|].
  assert (Hne : c :: d <> []) by discriminate.
  pose proof (expandtabs_nonempty _ Hne) as Hne'.
  pose proof (splitlines_nonempty _ Hne') as Hl.
  destruct (splitlines (expandtabs (c :: d))) as [|first rest] eqn:E;
    [congruence|].
  rewrite (trim_unfold _ _ _ Hne E).
  rewrite (trim_unfold _ first rest Hne');
    [reflexivity|]. now rewrite expandtabs_idem.
Qed.

Lemma trim_no_indent (s first : str) (rest : list str) :
  splitlines (expandtabs s) = first :: rest ->
  (forall l, In l rest -> blank l = true) ->
  trim (Some s) = OK (strip first).
Proof.
  intros E H.
  assert (Hne : s <> []) by (intros ->; discriminate).
  rewrite (trim_unfold _ _ _ Hne E).
  unfold min_indent. rewrite fold_indent_all_blank by exact H.
  change (sys_maxsize <? sys_maxsize)%Z with false. cbv iota.
  destruct (strip first) eqn:S; reflexivity.
Qed.

Lemma line_length_bound (s first : str) (rest : list str) (l : str) :
  splitlines s = first :: rest -> In l rest -> length l <= length s.
Proof.
  intros E H. pose proof (splitlines_length s) as F. rewrite E in F.
  inversion F as [|? ? _ Fr]; subst. rewrite Forall_forall in Fr. now apply Fr.
Qed.

Lemma trim_common_indent (s first : str) (rest : list str) (k : nat) :
  (Z.of_nat (length (expandtabs s)) <= sys_maxsize)%Z ->
  splitlines (expandtabs s) = first :: rest ->
  common_indent k rest ->
  trim (Some s) =
  OK (join [LF] (pop_leading (pop_trailing
        (strip first :: map (fun l => rstrip (skipn k l)) rest)))).
Proof.
  intros Hlen E C.
  assert (Hne : s <> []) by (intros ->; discriminate).
  assert (Hk : (Z.of_nat k < sys_maxsize)%Z).
  { destruct C as [_ (l & Hl & B & Ek)].
    pose proof (line_length_bound _ _ _ _ E Hl) as L.
    pose proof (lstrip_length l) as LL.
    assert (lstrip l <> []) by (intros X; apply lstrip_blank in X; congruence).
    destruct (lstrip l); [congruence|]. simpl in LL. lia. }
  rewrite (trim_unfold _ _ _ Hne E), (min_indent_common _ _ C Hk).
  apply Z.ltb_lt in Hk. rewrite Hk, Nat2Z.id. reflexivity.
Qed.

Lemma rstrip_app_nonblank (a b : str) :
  blank b = false -> rstrip (a ++ b) = a ++ rstrip b.
Proof.
  intros B. unfold rstrip. rewrite rev_app_distr.
  rewrite lstrip_app_nonblank by now rewrite blank_rev.
  now rewrite rev_app_distr, rev_involutive.
Qed.

Lemma dedent_nonblank_line (k : nat) (l : str) :
  k <= indentation l -> blank l = false ->
  blank (firstn k l) = true /\
  length (skipn k l) + k = length l /\
  (rstrip l = l -> rstrip (skipn k l) = skipn k l).
Proof.
  intros Hk B. repeat split.
  - now apply indentation_firstn.
  - rewrite length_skipn. pose proof (indentation_le l). lia.
  - intros R. rewrite <- (firstn_skipn k l) in R at 1 2.
    rewrite rstrip_app_nonblank in R by now rewrite blank_skipn.
    now apply app_inv_head in R.
Qed.

Lemma dedent_blank_line (k : nat) (l : str) :
  blank l = true -> rstrip (skipn k l) = [].
Proof. intros B. now apply rstrip_blank, blank_skipn_true. Qed.

(** C2 (amended).  The text normaliser.  [trim] returns the empty text
    for [None], for the empty text and for a text of whitespace only; it
    gives the same result on a text and on its tab expansion.  For a
    text whose
    tab-expanded lines are [first :: rest], where [k] is the indentation
    shared by the lines of [rest] that are not blank (each has at least
    [k] leading whitespace characters and one has exactly [k]), the
    result is the lines [strip first] and [l] without its first [k]
    characters and its trailing whitespace for each [l] of [rest], with
    the empty lines at both ends removed, joined by line feeds.  A line
    of [rest] that is not blank loses exactly [k] whitespace characters
    at its start (and nothing else when it has no trailing whitespace);
    a blank line becomes empty.  When every line of [rest] is blank the
    result is [strip first] alone. *)
Theorem trim_dedent (s first : str) (rest : list str) (k : nat) :
  (Z.of_nat (length (expandtabs s)) <= sys_maxsize)%Z ->
  splitlines (expandtabs s) = first :: rest ->
  common_indent k rest ->
  (exists out,
      trim (Some s) = OK (join [LF] out) /\
      blank_ends_removed
        (strip first :: map (fun l => rstrip (skipn k l)) rest) out) /\
  (forall l, In l rest -> blank l = false ->
      blank (firstn k l) = true /\
      length (skipn k l) + k = length l /\
      (rstrip l = l -> rstrip (skipn k l) = skipn k l)) /\
  (forall l, In l rest -> blank l = true -> rstrip (skipn k l) = []) /\
  trim (Some s) = trim (Some (expandtabs s)) /\
  trim None = OK [] /\ trim (Some []) = OK [] /\
  (forall w, blank w = true -> trim (Some w) = OK []) /\
  (forall s' first' rest',
      splitlines (expandtabs s') = first' :: rest' ->
      (forall l, In l rest' -> blank l = true) ->
      trim (Some s') = OK (strip first')).
Proof.
  intros Hlen E C. repeat split.
  - eexists. split; [apply (trim_common_indent _ _ _ _ Hlen E C)|].
    apply pop_blank_ends.
  - now apply indentation_firstn, (proj1 C).
  - apply dedent_nonblank_line; [now apply (proj1 C)|assumption].
  - apply dedent_nonblank_line; [now apply (proj1 C)|assumption].
  - intros l _ B. now apply dedent_blank_line.
  - apply trim_expandtabs.
  - apply trim_blank.
  - intros s' first' rest'. apply trim_no_indent.
Qed.

(** The normaliser is idempotent on a text whose first line is not
    blank. *)
Lemma trim_twice (s first : str) (rest : list str) :
  splitlines (expandtabs s) = first :: rest -> blank first = false ->
  exists t, trim (Some s) = OK t /\ trim (Some t) = OK t.
Proof.
  intros E B.
  assert (Hne : s <> []) by (intros ->; discriminate).
  assert (Hfirst : strip first <> []).
  { intros X. apply strip_blank in X. congruence. }
  pose proof (expandtabs_from_no_tab 0 s) as NT.
  apply splitlines_Forall in NT. fold (expandtabs s) in NT.
  pose proof (splitlines_no_linebreak (expandtabs s)) as NL.
  rewrite E in NT, NL.
  inversion NT as [|? ? NTf NTr]; inversion NL as [|? ? NLf NLr]; subst.
  rewrite (trim_unfold _ _ _ Hne E).
  destruct (min_indent rest <? sys_maxsize)%Z eqn:K.
  - (* an indentation was found *)
    apply Z.ltb_lt in K.
    set (n := Z.to_nat (min_indent rest)).
    set (f := fun line : str => rstrip (skipn n line)).
    pose proof (min_indent_found _ K) as C. fold n in C.
    rewrite pop_trailing_cons, pop_leading_nonempty_head by exact Hfirst.
    set (R := pop_trailing (map f rest)).
    exists (join [LF] (strip first :: R)); split; [reflexivity|].
    assert (HR : forall P : char -> Prop, Forall (Forall P) rest ->
                                          Forall (Forall P) R).
    { intros P H. apply pop_trailing_Forall. rewrite Forall_map.
      eapply Forall_impl; [|exact H]. intros l Hl.
      now apply rstrip_Forall, skipn_Forall. }
    assert (Et : expandtabs (join [LF] (strip first :: R))
                 = join [LF] (strip first :: R)).
    { apply expandtabs_from_id, join_Forall.
      - repeat constructor.
      - constructor; [now apply strip_Forall|now apply HR]. }
    assert (Es : splitlines (join [LF] (strip first :: R)) = strip first :: R).
    { apply splitlines_join.
      - constructor; [now apply strip_Forall|now apply HR].
      - discriminate.
      - destruct R as [|r R'] eqn:ER; [exact Hfirst|].
        change (last (strip first :: r :: R') []) with (last (r :: R') []).
        rewrite <- ER. apply pop_trailing_last. unfold R in ER.
        rewrite ER. discriminate. }
    rewrite (trim_unfold _ (strip first) R);
      [|now apply join_nonempty|now rewrite Et].
    assert (C0 : common_indent 0 R).
    { split; [intros; lia|].
      destruct C as [Hlow (l0 & Hin & B0 & E0)].
      assert (Bf : blank (f l0) = false).
      { unfold f. rewrite blank_rstrip, blank_skipn; [exact B0|lia]. }
      exists (f l0). repeat split.
      - apply pop_trailing_In; [now apply in_map|].
        intros X. rewrite X in Bf. discriminate.
      - exact Bf.
      - unfold f. rewrite indentation_rstrip, indentation_skipn; try lia.
        rewrite blank_skipn; [exact B0|lia]. }
    rewrite (min_indent_common _ _ C0) by reflexivity.
    change (Z.of_nat 0 <? sys_maxsize)%Z with true. cbv iota.
    change (Z.to_nat (Z.of_nat 0)) with 0.
    match goal with
    | |- context [map ?g R] => assert (EM : map g R = R)
    end.
    { rewrite <- (map_id R) at 2. apply map_ext_Forall.
      apply pop_trailing_Forall. rewrite Forall_map.
      apply Forall_forall. intros l _. unfold f. simpl. apply rstrip_idem. }
    rewrite EM, strip_idem.
    rewrite pop_trailing_cons, pop_leading_nonempty_head by exact Hfirst.
    unfold R. now rewrite pop_trailing_idem.
  - (* no line after the first has text *)
    rewrite pop_trailing_cons, pop_leading_nonempty_head by exact Hfirst.
    change (pop_trailing []) with (@nil str). simpl join.
    exists (strip first); split; [reflexivity|].
    rewrite (trim_unfold _ (strip first) []); [|exact Hfirst|].
    + change (min_indent []) with sys_maxsize.
      change (sys_maxsize <? sys_maxsize)%Z with false. cbv iota.
      rewrite strip_idem.
      rewrite pop_trailing_cons, pop_leading_nonempty_head by exact Hfirst.
      reflexivity.
    + unfold expandtabs.
      rewrite expandtabs_from_id by now apply strip_Forall.
      apply splitlines_single; [now apply strip_Forall|exact Hfirst].
Qed.

(** ** Exceptions and sequencing *)

Lemma bind_OK {A B : Type} (m : result A) (k : A -> result B) (b : B) :
  bind m k = OK b -> exists a, m = OK a /\ k a = OK b.
Proof. destruct m as [a|e]; simpl; [eauto|discriminate]. Qed.

(** Splits a hypothesis [bind m k = OK b] into its two steps. *)
Ltac bind_inv H :=
  let a := fresh "x" in
  let Ha := fresh "H" in
  apply bind_OK in H; destruct H as (a & Ha & H).

Tactic Notation "bind_split" hyp(H) "as" ident(a) ident(Ha) :=
  apply bind_OK in H; destruct H as (a & Ha & H).

Lemma map_result_ext {A B : Type} (f g : A -> result B) (xs : list A) :
  (forall x, f x = g x) -> map_result f xs = map_result g xs.
Proof.
  intros E. induction xs as [|x xs IH]; simpl; [reflexivity|].
  now rewrite E, IH.
Qed.

(** ** Document nodes *)

Lemma add_children (p : node) (c : node) :
  node_children (add p (Some c)) = node_children p ++ [c].
Proof. now destruct p. Qed.

Lemma add_Node (t : tag) (i : list str) (x : option str) (cs : list node)
    (c : option node) :
  add (Node t i x cs) c =
  Node t i x (cs ++ match c with Some n => [n] | None => [] end).
Proof. destruct c; simpl; [reflexivity|now rewrite app_nil_r]. Qed.

Lemma add_all_Node (t : tag) (i : list str) (x : option str)
    (cs l : list node) :
  add_all (Node t i x cs) l = Node t i x (cs ++ l).
Proof.
  unfold add_all. revert cs. induction l as [|c l IH]; intros cs; simpl.
  - now rewrite app_nil_r.
  - rewrite IH. now rewrite <- app_assoc.
Qed.

(** ** Directive options *)

Lemma lookup_app {A : Type} (key : str) (d1 d2 : list (str * A)) :
  lookup key (d1 ++ d2) =
  match lookup key d1 with
  | Some v => Some v
  | None => lookup key d2
  end.
Proof.
  induction d1 as [|[k v] d1 IH]; simpl; [reflexivity|].
  now destruct (str_eqb key k).
Qed.

Lemma convert_shape (json_loads : str -> result (list (str * str)))
    (c : converter) (argument : option str) (v : optval) :
  convert json_loads c argument = OK v -> shape_ok c v = true.
Proof.
  destruct c; simpl; intros H.
  - now injection H as <-.
  - now injection H as <-.
  - bind_inv H. now injection H as <-.
Qed.

Lemma parse_options_declared (json_loads : str -> result (list (str * str)))
    (written : list (str * option str)) (acc opts : options) :
  declared acc -> parse_options json_loads written acc = OK opts ->
  declared opts.
Proof.
  revert acc. induction written as [|[name argument] written IH];
    intros acc Hacc H; cbn [parse_options] in H.
  - now injection H as <-.
  - destruct (lookup name option_spec) as [c|] eqn:Ec; [|discriminate].
    destruct (lookup name acc) eqn:Ea; [discriminate|].
    bind_inv H. refine (IH _ _ H).
    intros key v. rewrite lookup_app.
    destruct (lookup key acc) as [v'|] eqn:Ek.
    + intros E; injection E as <-. now apply Hacc.
    + simpl. destruct (str_eqb key name) eqn:En; [|discriminate].
      intros E; injection E as <-. apply str_eqb_eq in En. subst key.
      exists c. split; [exact Ec|]. eapply convert_shape; eassumption.
Qed.

Lemma parsed_declared (json_loads : str -> result (list (str * str)))
    (written : list (str * option str)) (opts : options) :
  parse_options json_loads written [] = OK opts -> declared opts.
Proof.
  apply parse_options_declared. intros key v H. discriminate.
Qed.

Lemma declared_get_list (opts : options) (key : string) :
  declared opts ->
  lookup (lit key) option_spec = Some by_convert_to_list ->
  exists l, get_list opts key = OK l.
Proof.
  intros D S. unfold get_list.
  destruct (lookup (lit key) opts) as [v|] eqn:E; [|eauto].
  destruct (D _ _ E) as (c & Ec & Hc). rewrite S in Ec.
  injection Ec as <-. destruct v; try discriminate. eauto.
Qed.

Lemma declared_get_text (opts : options) (key : string) :
  declared opts ->
  lookup (lit key) option_spec = Some by_unchanged ->
  exists t, get_text opts key = OK t.
Proof.
  intros D S. unfold get_text.
  destruct (lookup (lit key) opts) as [v|] eqn:E; [|eauto].
  destruct (D _ _ E) as (c & Ec & Hc). rewrite S in Ec.
  injection Ec as <-. destruct v; try discriminate. eauto.
Qed.

Lemma declared_get_dict (opts : options) (key : string) :
  declared opts ->
  lookup (lit key) option_spec = Some by_from_json_to_dict ->
  exists d, get_dict opts key = OK d.
Proof.
  intros D S. unfold get_dict.
  destruct (lookup (lit key) opts) as [v|] eqn:E; [|eauto].
  destruct (D _ _ E) as (c & Ec & Hc). rewrite S in Ec.
  injection Ec as <-. destruct v; try discriminate. eauto.
Qed.

(** [option_spec] declares no option [exclude], so [self.options] never
    holds one and [self.options.get('exclude')] is [None]. *)
Lemma declared_no_exclude (opts : options) :
  declared opts -> get_names opts "exclude" = OK None.
Proof.
  intros D. unfold get_names.
  destruct (lookup (lit "exclude") opts) as [v|] eqn:E; [|reflexivity].
  destruct (D _ _ E) as (c & Ec & _). discriminate.
Qed.

(** ** The service renderer *)

Section RendererFacts.

Context {V Sch : Type} {X : Collaborators V Sch}.

Variable opts : options.

Lemma kept_true (ignored : list str) (method : str) :
  kept ignored method = true <->
  str_eqb method (lit "HEAD") = false /\ mem method ignored = false.
Proof.
  unfold kept. rewrite andb_true_iff, !negb_true_iff. tauto.
Qed.

(** A definition that is rendered gives a section for its method that
    starts with the method as title and ends with the response. *)
Lemma render_definition_Some (service_id method : str) (view : handler)
    (a : args Sch) (n : node) :
  render_definition opts service_id (method, view, a) = OK (Some n) ->
  exists ignored body r,
    get_list opts "ignore-methods" = OK ignored /\
    kept ignored method = true /\
    renderer a = Some r /\
    n = Node section [service_id ++ lit "-" ++ method] None
             (text_node title method :: body ++ [response_node r]).
Proof.
  unfold render_definition.
  destruct (str_eqb method (lit "HEAD")) eqn:Eh; [discriminate|].
  intros H. bind_split H as ignored Hig.
  destruct (mem method ignored) eqn:Em; [discriminate|].
  bind_split H as docstring Hdoc. bind_split H as replacements Hrep.
  bind_split H as method_node Hm. bind_split H as docstring' Hval.
  bind_split H as transformed Htr. bind_split H as r Hr.
  injection H as <-.
  destruct (renderer a) as [r'|] eqn:Er; [|discriminate].
  injection Hr as <-.
  rewrite !add_Node in *. simpl app in *.
  assert (Hshape : exists b1,
             method_node = Node section [service_id ++ lit "-" ++ method]
                                None (text_node title method :: b1)).
  { destruct (schema a) as [sch|].
    - bind_split Hm as attrs_node Hattrs. injection Hm as <-. eauto.
    - injection Hm as <-. eauto. }
  destruct Hshape as (b1 & ->).
  exists ignored.
  exists (b1 ++ match accept a with
                | Some acc => [render_accept acc]
                | None => []
                end
             ++ match transformed with
                | Some t => [t]
                | None => []
                end).
  exists r'. split; [assumption|]. split; [apply kept_true; auto|].
  split; [reflexivity|].
  destruct (accept a); destruct transformed; rewrite ?add_Node; simpl;
    rewrite <- ?app_assoc; simpl; rewrite ?app_nil_r; reflexivity.
Qed.





(** C8.  A rendered method section ends with the response paragraph,
    whose text is ["Response: json"] when the renderer of the definition
    is ["simplejson"] and ["Response: "] followed by the renderer itself
    for any other renderer. *)
Theorem response_line (service_id method : str) (view : handler)
    (a : args Sch) (n : node) :
  render_definition opts service_id (method, view, a) = OK (Some n) ->
  exists r front,
    renderer a = Some r /\
    node_children n =
      front ++
      [Node paragraph [] None
         [text_node strong
            (lit "Response: " ++
             if str_eqb r (lit "simplejson") then lit "json" else r)]].
Proof.
  intros H. apply render_definition_Some in H.
  destruct H as (ignored & body & r & _ & _ & Hr & ->).
  exists r, (text_node title method :: body). split; [exact Hr|reflexivity].
Qed.

(** *** The schema block *)

Lemma contains_body (location : str) :
  In location locations ->
  contains (lit "body") location = str_eqb location (lit "body").
Proof.
  intros [<-|[<-|[<-|[]]]]; reflexivity.
Qed.

Lemma get_attributes_listed (sch : Sch) (children : list (attr V))
    (location : str) :
  schema_children sch = OK children -> In location locations ->
  get_attributes sch location = OK (filter (listed_under location) children).
Proof.
  intros H L. unfold get_attributes. rewrite H. simpl. f_equal.
  apply filter_ext. intros a. unfold listed_under.
  destruct (attr_location a) as [l|].
  - simpl. apply orb_false_r.
  - now apply contains_body.
Qed.

Lemma render_attr_item (a : attr V) : render_attr a = item a.
Proof.
  unfold render_attr, item, item_suffix, shown_type, described.
  destruct (attr_required a); simpl negb; cbn [orb].
  - destruct (truthy (or_empty (attr_description a)));
      destruct (match attr_type a with Some t => t | None => attr_typ a end);
      reflexivity.
  - destruct (attr_missing a) as [m|].
    + destruct (json_dumps m) as [t|e]; simpl; [|reflexivity].
      destruct (truthy (or_empty (attr_description a)));
        destruct (match attr_type a with Some t => t | None => attr_typ a end);
        reflexivity.
    + destruct (truthy (or_empty (attr_description a)));
        destruct (match attr_type a with Some t => t | None => attr_typ a end);
        reflexivity.
Qed.

Lemma render_location_block (sch : Sch) (children : list (attr V))
    (location : str) (cs : list node) :
  schema_children sch = OK children -> In location locations ->
  render_location sch (Node inline [] None cs) location =
  (block <- location_block children location ;;
   OK (Node inline [] None (cs ++ block)))%py.
Proof.
  intros H L. unfold render_location, location_block.
  rewrite (get_attributes_listed _ _ _ H L). cbn [bind].
  destruct (filter (listed_under location) children) as [|f fs].
  - cbn [bind]. now rewrite app_nil_r.
  - rewrite (map_result_ext render_attr item) by apply render_attr_item.
    destruct (map_result item (f :: fs)) as [items|e]; cbn [bind];
      [|reflexivity].
    unfold empty_node. rewrite add_all_Node, !add_Node. simpl.
    now rewrite <- app_assoc.
Qed.

Lemma render_schema_block (sch : Sch) (children : list (attr V)) :
  schema_children sch = OK children ->
  render_schema sch = schema_block children.
Proof.
  intros H. unfold render_schema, schema_block, locations, empty_node.
  cbn [fold_left bind].
  rewrite (render_location_block _ _ _ _ H) by (simpl; auto).
  destruct (location_block children (lit "header")) as [b1|e];
    [|reflexivity].
  cbn [bind app].
  rewrite (render_location_block _ _ _ _ H) by (simpl; auto).
  destruct (location_block children (lit "querystring")) as [b2|e];
    [|reflexivity].
  cbn [bind].
  rewrite (render_location_block _ _ _ _ H) by (simpl; auto).
  destruct (location_block children (lit "body")) as [b3|e];
    [|reflexivity].
  cbn [bind]. now rewrite <- app_assoc.
Qed.

(** C7 (amended).  The schema block of a method section lists the
    locations in the order header, querystring, body; a field with no
    location attribute is listed under body only; a location with fields
    contributes a caption and a bulleted list with one item per field.
    An item holds the name in bold, the type in parentheses when there
    is one, and then: nothing for a required field with no description;
    the description alone for a required field with a description; for a
    field that is not required, the default (or the word optional when
    the default is [None]) followed by the description if any. *)
Theorem schema_block_rendered (sch : Sch) (children : list (attr V)) :
  schema_children sch = OK children ->
  render_schema sch = schema_block children /\
  (forall a, render_attr a = item a) /\
  (forall (a : attr V) location,
      In location locations ->
      get_attributes sch location
      = OK (filter (listed_under location) children) /\
      (attr_location a = None ->
       listed_under location a = str_eqb location (lit "body"))) /\
  (forall a : attr V, attr_required a = true -> described a = false ->
                      item_suffix a = OK []).
Proof.
  intros H. split; [now apply render_schema_block|].
  split; [apply render_attr_item|]. split.
  - intros a location L. split; [now apply get_attributes_listed|].
    intros E. unfold listed_under. now rewrite E.
  - intros a R D. unfold item_suffix. now rewrite R, D.
Qed.

(** *** Rendering without exceptions *)









End RendererFacts.

(** ** The directive entry point *)

Section RunFacts.

Context {V Sch : Type} {X : Collaborators V Sch}.

Variable opts : options.

Lemma render_service_unfold (s : service Sch) (w : world Sch) :
  render_service opts s w =
  (render_service_as opts (lit "service-" ++ decimal (Z.of_nat (serialno w))) s,
   {| SERVICES := SERVICES w; MODULES := MODULES w;
      serialno := S (serialno w) |}).
Proof. reflexivity. Qed.

Lemma mapM_cons {W A B : Type} (f : A -> M W B) (x : A) (xs : list A) (w : W) :
  mapM f (x :: xs) w =
  match f x w with
  | (OK y, w1) =>
      match mapM f xs w1 with
      | (OK ys, w2) => (OK (y :: ys), w2)
      | (Raise e, w2) => (Raise e, w2)
      end
  | (Raise e, w1) => (Raise e, w1)
  end.
Proof.
  cbn [mapM]. unfold bindM. destruct (f x w) as [[y|e] w1]; [|reflexivity].
  destruct (mapM f xs w1) as [[ys|e] w2]; reflexivity.
Qed.

(** Rendering reads and advances the serial number only. *)
Lemma mapM_render_frame (sel : list (service Sch)) (w : world Sch) :
  SERVICES (snd (mapM (render_service opts) sel w)) = SERVICES w /\
  MODULES (snd (mapM (render_service opts) sel w)) = MODULES w.
Proof.
  revert w. induction sel as [|s sel IH]; intros w; [now split|].
  rewrite mapM_cons, render_service_unfold.
  destruct (render_service_as opts _ s) as [y|e]; [|now split].
  match goal with |- context [mapM _ sel ?w1] => specialize (IH w1) end.
  destruct (mapM (render_service opts) sel _) as [[ys|e] w2]; exact IH.
Qed.

Lemma mapM_render_serial (sel : list (service Sch)) (w w' : world Sch) :
  serialno w = serialno w' ->
  fst (mapM (render_service opts) sel w)
  = fst (mapM (render_service opts) sel w').
Proof.
  revert w w'. induction sel as [|s sel IH]; intros w w' E; [reflexivity|].
  rewrite !mapM_cons, !render_service_unfold, E.
  destruct (render_service_as opts _ s) as [y|e]; [|reflexivity].
  pose proof (IH {| SERVICES := SERVICES w; MODULES := MODULES w;
                    serialno := S (serialno w') |}
                 {| SERVICES := SERVICES w'; MODULES := MODULES w';
                    serialno := S (serialno w') |} eq_refl) as IH'.
  clear IH. rename IH' into IH.
  destruct (mapM (render_service opts) sel _) as [[ys|e] w2];
    destruct (mapM (render_service opts) sel _) as [[ys'|e'] w2'];
    simpl in IH; try discriminate; try (injection IH as ->); reflexivity.
Qed.

Lemma mapM_render_all (sel : list (service Sch)) (w : world Sch) :
  fst (mapM (render_service opts) sel w) = render_all opts sel (serialno w).
Proof. unfold render_all. now apply mapM_render_serial. Qed.

(** With modules that register the same services when imported and when
    reloaded, the import loop appends what the modules register to the
    registry, whatever the module cache holds. *)
Lemma import_modules_spec (modules : list str) :
  (forall m, In m modules -> import_module m = reload m) ->
  forall w : world Sch,
    match modules_register modules with
    | OK registered =>
        exists w', import_modules modules w = (OK tt, w') /\
                   SERVICES w' = SERVICES w ++ registered /\
                   serialno w' = serialno w
    | Raise e => exists w', import_modules modules w = (Raise e, w')
    end.
Proof.
  induction modules as [|m ms IH]; intros Hm w.
  - simpl. exists w. now rewrite app_nil_r.
  - cbn [modules_register import_modules]. unfold bindM.
    assert (Hms : forall m', In m' ms -> import_module m' = reload m')
      by (intros; apply Hm; now right).
    specialize (IH Hms).
    assert (Hi : import_module m = reload m) by (apply Hm; now left).
    destruct (mem m (MODULES w)); rewrite ?Hi;
      (destruct (reload m) as [r|e]; cbn [bind]; [|eauto]);
      match goal with |- context [import_modules ms ?w1] =>
        specialize (IH w1) end;
      (destruct (modules_register ms) as [rs|e]; cbn [bind];
       [destruct IH as (w' & -> & Es & En); exists w'; simpl in *;
        rewrite Es, <- app_assoc; auto
       |destruct IH as (w' & ->); eauto]).
Qed.

(** What the first half of [run] registers does not depend on the state
    it starts from. *)
Lemma load_services_spec :
  (forall ms m, get_list opts "modules" = OK ms -> In m ms ->
                import_module m = reload m) ->
  exists outcome : result (list (service Sch)),
    forall w : world Sch,
      match outcome with
      | OK registered =>
          exists w', load_services opts w = (OK tt, w') /\
                     SERVICES w' = SERVICES w ++ registered /\
                     serialno w' = serialno w
      | Raise e => exists w', load_services opts w = (Raise e, w')
      end.
Proof.
  intros Hm. unfold load_services, bindM, lift, ret.
  destruct (get_text opts "app") as [app_name|e];
    [|exists (Raise e); eauto].
  assert (Hmods : forall registered0 : list (service Sch),
    exists outcome : result (list (service Sch)),
    forall w w0 : world Sch,
      SERVICES w0 = SERVICES w ++ registered0 -> serialno w0 = serialno w ->
      match outcome with
      | OK registered =>
          exists w',
            match get_list opts "modules" with
            | OK a => import_modules a w0
            | Raise e => (Raise e, w0)
            end = (OK tt, w') /\
            SERVICES w' = SERVICES w ++ registered /\
            serialno w' = serialno w
      | Raise e =>
          exists w',
            match get_list opts "modules" with
            | OK a => import_modules a w0
            | Raise e => (Raise e, w0)
            end = (Raise e, w')
      end).
  { intros registered0.
    destruct (get_list opts "modules") as [ms|e];
      [|exists (Raise e); eauto].
    specialize (Hm ms). pose proof (import_modules_spec ms) as Sp.
    destruct (modules_register ms) as [rs|e].
    - exists (OK (registered0 ++ rs)). intros w w0 Es En.
      destruct (Sp (fun m H => Hm m eq_refl H) w0) as (w' & -> & Es' & En').
      exists w'. rewrite Es', Es, En', En, app_assoc. auto.
    - exists (Raise e). intros w w0 _ _.
      destruct (Sp (fun m H => Hm m eq_refl H) w0) as (w' & ->). eauto. }
  destruct app_name as [[|c a]|].
  - destruct (Hmods []) as (outcome & Ho). exists outcome. intros w.
    apply Ho; [now rewrite app_nil_r|reflexivity].
  - destruct (app_main (c :: a)) as [registered|e];
      [|exists (Raise e); eauto].
    destruct (Hmods registered) as (outcome & Ho). exists outcome. intros w.
    now apply Ho.
  - destruct (Hmods []) as (outcome & Ho). exists outcome. intros w.
    apply Ho; [now rewrite app_nil_r|reflexivity].
Qed.

(** Once its first half has succeeded, [run] asks the registry for the
    selected names with no exclusion, empties the registry and renders
    what it was given. *)
Lemma run_spec (w w' : world Sch) :
  declared opts -> load_services opts w = (OK tt, w') ->
  exists names,
    selection opts = OK names /\
    run opts w = mapM (render_service opts)
                      (selected_services names None w') (clear_services w').
Proof.
  intros D L.
  destruct (declared_get_list opts "services" D eq_refl) as (names & Hn).
  destruct (declared_get_text opts "service" D eq_refl) as (service & Hs).
  exists (match service with Some s => names ++ [s] | None => names end).
  split.
  - unfold selection. rewrite Hn, Hs. reflexivity.
  - unfold run, bindM. rewrite L. unfold lift, selection.
    rewrite Hn, Hs. cbn [bind]. now rewrite (declared_no_exclude opts D).
Qed.

(** C4 (amended).  An invocation whose imports succeed asks the registry
    for the selected services, empties it and then renders, so the
    registry is empty afterwards whether or not rendering succeeds.
    When the first of two invocations with the same options starts from
    an empty registry, and every listed module registers the same
    services imported as reloaded, both invocations render the same
    services: their results are the rendering of one list of services,
    each with the serial numbers current at its start. *)
Theorem run_clears_and_repeats (w0 w1 w2 : world Sch)
    (r1 r2 : result (list node)) :
  declared opts ->
  (forall ms m, get_list opts "modules" = OK ms -> In m ms ->
                import_module m = reload m) ->
  (exists w', load_services opts w0 = (OK tt, w')) ->
  run opts w0 = (r1, w1) ->
  run opts w1 = (r2, w2) ->
  SERVICES w1 = [] /\ SERVICES w2 = [] /\
  (SERVICES w0 = [] ->
   exists sel,
     r1 = render_all opts sel (serialno w0) /\
     r2 = render_all opts sel (serialno w1)).
Proof.
  intros D Hm (w0' & L0) R1 R2.
  destruct (load_services_spec Hm) as (outcome & Ho).
  destruct outcome as [registered|e].
  2:{ destruct (Ho w0) as (w' & E). congruence. }
  destruct (Ho w0) as (w0'' & L0' & Es0 & En0).
  rewrite L0 in L0'. injection L0' as <-.
  destruct (Ho w1) as (w1' & L1 & Es1 & En1).
  destruct (run_spec _ _ D L0) as (names & Hsel & E1).
  destruct (run_spec _ _ D L1) as (names' & Hsel' & E2).
  rewrite Hsel in Hsel'. injection Hsel' as <-.
  rewrite E1 in R1. rewrite E2 in R2.
  assert (C1 : SERVICES w1 = []).
  { replace w1 with (snd (mapM (render_service opts)
                            (selected_services names None w0')
                            (clear_services w0'))) by now rewrite R1.
    now rewrite (proj1 (mapM_render_frame _ _)). }
  assert (C2 : SERVICES w2 = []).
  { replace w2 with (snd (mapM (render_service opts)
                            (selected_services names None w1')
                            (clear_services w1'))) by now rewrite R2.
    now rewrite (proj1 (mapM_render_frame _ _)). }
  repeat split; auto.
  intros E0. exists (selected_services names None w0'). split.
  - replace r1 with (fst (mapM (render_service opts)
                            (selected_services names None w0')
                            (clear_services w0'))) by now rewrite R1.
    rewrite mapM_render_all. simpl. now rewrite En0.
  - replace r2 with (fst (mapM (render_service opts)
                            (selected_services names None w1')
                            (clear_services w1'))) by now rewrite R2.
    rewrite mapM_render_all. simpl. rewrite En1.
    unfold selected_services. now rewrite Es0, Es1, E0, C1.
Qed.

End RunFacts.

(** C3.  The directive is given [:ignore: foo] while the registry holds
    the service [foo]: the option is parsed into [self.options] under
    [ignore], [run] reads the exclusion from [exclude], which no option
    can set, and the service is rendered. *)
Theorem ignored_service_is_rendered :
  parse_options sample_json_loads sample_ignore_foo []
  = OK [(lit "ignore", OList [lit "foo"])] /\
  get_names [(lit "ignore", OList [lit "foo"])] "exclude" = OK None /\
  exists body,
    fst (run [(lit "ignore", OList [lit "foo"])]
             (sample_world [sample_service]))
    = OK [Node section [lit "service-0"] None
               (text_node title (lit "Foo service at /foo") :: body)].
Proof.
  split; [reflexivity|]. split; [reflexivity|].
  eexists. vm_compute. reflexivity.
Qed.

(** ** The inline code executor *)

Section ExecutorFacts.

Context {A SM : Type} {I : Interpreter A SM}.





End ExecutorFacts.

(** ** Idempotence of the normaliser *)

(** C10 (amended).  [trim] applied to its own result returns it
    unchanged for every text whose first line is not blank, and for
    every blank text. *)
Theorem trim_idempotent (s : str) :
  blank (hd [] (splitlines (expandtabs s))) = false \/ blank s = true ->
  exists t, trim (Some s) = OK t /\ trim (Some t) = OK t.
Proof.
  intros [B|B].
  - destruct (splitlines (expandtabs s)) as [|first rest] eqn:E;
      [discriminate|].
    now apply trim_twice with first rest.
  - exists []. split; [now apply trim_blank|reflexivity].
Qed.

(** ** The properties on sample data *)

Lemma trim_dedent_witness :
  (Z.of_nat (length (expandtabs sample_indented)) <= sys_maxsize)%Z /\
  splitlines (expandtabs sample_indented)
  = [lit "Summary."; []; lit "        details  "; lit "          more";
     lit "        "] /\
  common_indent 8 [[]; lit "        details  "; lit "          more";
                   lit "        "] /\
  exists out,
    trim (Some sample_indented) = OK (join [LF] out) /\
    blank_ends_removed
      (strip (lit "Summary.") ::
       map (fun l => rstrip (skipn 8 l))
           [[]; lit "        details  "; lit "          more";
            lit "        "])
      out.
Proof.
  assert (h1 : (Z.of_nat (length (expandtabs sample_indented))
                <= sys_maxsize)%Z) by (vm_compute; discriminate).
  assert (h2 : splitlines (expandtabs sample_indented)
               = [lit "Summary."; []; lit "        details  ";
                  lit "          more"; lit "        "]) by reflexivity.
  assert (h3 : common_indent 8 [[]; lit "        details  ";
                                lit "          more"; lit "        "]).
  { split.
    - intros l [<-|[<-|[<-|[<-|[]]]]] B; try discriminate B; simpl; lia.
    - exists (lit "        details  "). repeat split. simpl. auto. }
  exact (conj h1 (conj h2 (conj h3
           (proj1 (trim_dedent sample_indented _ _ 8 h1 h2 h3))))).
Defined.

(** C2, as stated, fails on a line with trailing whitespace: the lines
    after the first share an indentation of 2, and the second line
    loses four characters, two at each end. *)
Lemma trim_strips_trailing_whitespace :
  splitlines (expandtabs sample_trailing)
  = [lit "a"; lit "  b  "; lit "  c"] /\
  common_indent 2 [lit "  b  "; lit "  c"] /\
  trim (Some sample_trailing)
  = OK (lit "a" ++ [LF] ++ lit "b" ++ [LF] ++ lit "c") /\
  length (lit "  b  ") - length (lit "b") <> 2.
Proof.
  split; [reflexivity|]. split.
  - split.
    + intros l [<-|[<-|[]]] _; simpl; lia.
    + exists (lit "  c"). repeat split. simpl. auto.
  - split; [reflexivity|]. simpl. lia.
Qed.

Example trim_sample_indented :
  trim (Some sample_indented)
  = OK (lit "Summary." ++ [LF] ++ [LF] ++ lit "details" ++ [LF] ++
        lit "  more").
Proof. reflexivity. Qed.



Lemma run_clears_and_repeats_witness :
  declared (parsed_or_empty sample_modules) /\
  SERVICES (snd (run (parsed_or_empty sample_modules) (sample_world [])))
  = [] /\
  SERVICES (snd (run (parsed_or_empty sample_modules)
                     (snd (run (parsed_or_empty sample_modules)
                               (sample_world []))))) = [] /\
  (SERVICES (sample_world []) = [] ->
   exists sel,
     fst (run (parsed_or_empty sample_modules) (sample_world []))
     = render_all (parsed_or_empty sample_modules) sel 0 /\
     fst (run (parsed_or_empty sample_modules)
              (snd (run (parsed_or_empty sample_modules) (sample_world []))))
     = render_all (parsed_or_empty sample_modules) sel 1).
Proof.
  assert (h1 : declared (parsed_or_empty sample_modules)).
  { apply (parsed_declared sample_json_loads sample_modules). reflexivity. }
  assert (h2 : forall ms m,
             get_list (parsed_or_empty sample_modules) "modules" = OK ms ->
             In m ms -> import_module m = reload m)
    by reflexivity.
  assert (h3 : exists w',
             load_services (parsed_or_empty sample_modules) (sample_world [])
             = (OK tt, w'))
    by (eexists; vm_compute; reflexivity).
  exact (conj h1
           (run_clears_and_repeats
              (parsed_or_empty sample_modules) (sample_world []) _ _ _ _
              h1 h2 h3
              (surjective_pairing _) (surjective_pairing _))).
Defined.

(** C4, as stated, fails: two invocations in sequence with the same
    options return different node lists.  With [:modules: app.views]
    the sections differ in their identifiers; with no module and a
    registry filled beforehand the second invocation renders nothing. *)
Lemma run_twice_differs :
  (exists n1 n2,
      fst (run (parsed_or_empty sample_modules) (sample_world [])) = OK [n1] /\
      fst (run (parsed_or_empty sample_modules)
               (snd (run (parsed_or_empty sample_modules) (sample_world []))))
      = OK [n2] /\
      node_ids n1 = [lit "service-0"] /\ node_ids n2 = [lit "service-1"] /\
      n1 <> n2) /\
  (exists n,
      fst (run [] (sample_world [sample_service])) = OK [n] /\
      fst (run [] (snd (run [] (sample_world [sample_service])))) = OK []).
Proof.
  split.
  - eexists. eexists.
    split; [vm_compute; reflexivity|]. split; [vm_compute; reflexivity|].
    split; [reflexivity|]. split; [reflexivity|].
    intros E. apply (f_equal node_ids) in E. discriminate E.
  - eexists. split; vm_compute; reflexivity.
Qed.


Example exec_print_hi :
  exec_run (sample_exec "print('hi')") [] sample_process
  = (Returned [], [lit "hi"],
     set_stdout 0 (write_stdout (lit "hi" ++ [LF])
                                (redirect_stdout sample_process))).
Proof. reflexivity. Qed.


Lemma schema_block_rendered_witness :
  schema_children [sample_required_field; sample_optional_field]
  = OK [sample_required_field; sample_optional_field] /\
  render_schema [sample_required_field; sample_optional_field]
  = schema_block [sample_required_field; sample_optional_field].
Proof.
  assert (h : schema_children [sample_required_field; sample_optional_field]
              = OK [sample_required_field; sample_optional_field])
    by reflexivity.
  exact (conj h (proj1 (schema_block_rendered _ _ h))).
Defined.

Example schema_block_sample :
  schema_block [sample_required_field; sample_optional_field]
  = OK (Node inline [] None
          [text_node inline (lit "values in the querystring");
           Node bullet_list [] None
             [Node list_item [] None
                [text_node strong (lit "bar");
                 text_node inline (lit " (Integer)");
                 text_node inline (lit " - ");
                 text_node inline (lit "(default: " ++ [QUOTE] ++ lit "1" ++
                                   [QUOTE] ++ lit ") ")]];
           text_node inline (lit "values in the body");
           Node bullet_list [] None
             [Node list_item [] None
                [text_node strong (lit "foo");
                 text_node inline (lit " (String)");
                 text_node inline (lit " - ");
                 text_node inline (lit "The foo.")]]]).
Proof. reflexivity. Qed.

(** C7, as stated, fails on a required field with a description: the
    item rendered holds the description and no default or optional
    marker, where the description of the item read literally puts
    one. *)
Lemma required_described_field_has_no_marker :
  render_attr sample_required_field
  = OK (Node list_item [] None
          [text_node strong (lit "foo");
           text_node inline (lit " (String)");
           text_node inline (lit " - ");
           text_node inline (lit "The foo.")]) /\
  item_suffix_as_described sample_required_field
  = OK [text_node inline (lit " - ");
        text_node inline (lit "(optional) ");
        text_node inline (lit "The foo.")].
Proof. split; reflexivity. Qed.

Lemma response_line_witness :
  render_definition [] (lit "service-0") sample_put
  = OK (Some (match render_definition [] (lit "service-0") sample_put with
              | OK (Some n) => n
              | _ => empty_node section
              end)) /\
  exists r front,
    renderer sample_put_args = Some r /\
    node_children (match render_definition [] (lit "service-0") sample_put with
                   | OK (Some n) => n
                   | _ => empty_node section
                   end)
    = front ++
      [Node paragraph [] None
         [text_node strong
            (lit "Response: " ++
             if str_eqb r (lit "simplejson") then lit "json" else r)]].
Proof.
  assert (h : render_definition [] (lit "service-0") sample_put
              = OK (Some (match render_definition [] (lit "service-0")
                                                   sample_put with
                          | OK (Some n) => n
                          | _ => empty_node section
                          end))) by (vm_compute; reflexivity).
  exact (conj h (response_line [] (lit "service-0") (lit "PUT")
                               (named (lit "PUT")) sample_put_args _ h)).
Defined.

Example response_line_samples :
  response_node (lit "simplejson")
  = Node paragraph [] None [text_node strong (lit "Response: json")] /\
  response_node (lit "xml")
  = Node paragraph [] None [text_node strong (lit "Response: xml")].
Proof. split; reflexivity. Qed.


Lemma trim_idempotent_witness :
  blank (hd [] (splitlines (expandtabs sample_indented))) = false /\
  exists t, trim (Some sample_indented) = OK t /\ trim (Some t) = OK t.
Proof.
  assert (h : blank (hd [] (splitlines (expandtabs sample_indented))) = false)
    by reflexivity.
  exact (conj h (trim_idempotent sample_indented (or_introl h))).
Defined.

(** C10, as stated, fails on a docstring whose first line is blank: the
    lines that follow lose their common indentation in the first pass
    and, the first of them having become line 1, the others lose what
    indentation they had left in the second. *)
Lemma trim_not_idempotent :
  trim (Some sample_docstring) = OK (lit "a" ++ [LF] ++ lit "  b") /\
  trim (Some (lit "a" ++ [LF] ++ lit "  b"))
  = OK (lit "a" ++ [LF] ++ lit "b") /\
  lit "a" ++ [LF] ++ lit "  b" <> lit "a" ++ [LF] ++ lit "b".
Proof. repeat split; try reflexivity. discriminate. Qed.

(** * Further properties of the module *)

(** ** The normaliser: what its result looks like *)

Lemma pop_leading_Forall (P : str -> Prop) (l : list str) :
  Forall P l -> Forall P (pop_leading l).
Proof.
  intros H. destruct (pop_leading_spec l) as (a & E & _).
  rewrite E in H. now apply Forall_app in H.
Qed.

Lemma rstrip_fixed_nonblank (l : str) : rstrip l = l -> l <> [] -> blank l = false.
Proof.
  intros R N. destruct (blank l) eqn:B; [|reflexivity].
  apply rstrip_blank in B. congruence.
Qed.

(** The result of [trim] is a list of lines joined by line feeds; the
    lines have no tab, no line boundary and no trailing whitespace, and
    the first and the last are not empty. *)
Lemma trim_lines (s : str) :
  exists L,
    trim (Some s) = OK (join [LF] L) /\
    Forall (Forall (fun c => is_tab c = false)) L /\
    Forall (Forall (fun c => is_linebreak c = false)) L /\
    Forall (fun l => rstrip l = l) L /\
    hd_error L <> Some [] /\ hd_error (rev L) <> Some [].
Proof.
  destruct s as [|c d].
  - exists []. repeat split; try constructor; discriminate.
  - assert (Hne : c :: d <> []) by discriminate.
    pose proof (splitlines_nonempty _ (expandtabs_nonempty _ Hne)) as Hl.
    pose proof (expandtabs_from_no_tab 0 (c :: d)) as NT.
    apply splitlines_Forall in NT. fold (expandtabs (c :: d)) in NT.
    pose proof (splitlines_no_linebreak (expandtabs (c :: d))) as NL.
    destruct (splitlines (expandtabs (c :: d))) as [|first rest] eqn:E;
      [congruence|].
    rewrite (trim_unfold _ _ _ Hne E).
    inversion NT as [|? ? NTf NTr]; inversion NL as [|? ? NLf NLr]; subst.
    set (T := strip first :: _).
    assert (HT : forall P : char -> Prop,
               Forall P first -> Forall (Forall P) rest -> Forall (Forall P) T).
    { intros P Hf Hr. unfold T. constructor; [now apply strip_Forall|].
      destruct (min_indent rest <? sys_maxsize)%Z; [|constructor].
      rewrite Forall_map. eapply Forall_impl; [|exact Hr].
      intros l Hl'. now apply rstrip_Forall, skipn_Forall. }
    assert (HR : Forall (fun l => rstrip l = l) T).
    { unfold T. constructor.
      - unfold strip. apply rstrip_idem.
      - destruct (min_indent rest <? sys_maxsize)%Z; [|constructor].
        rewrite Forall_map. apply Forall_forall. intros l _. apply rstrip_idem. }
    destruct (pop_blank_ends T) as (a & b & _ & _ & _ & Hh & Hr).
    exists (pop_leading (pop_trailing T)). split; [reflexivity|].
    repeat split; auto.
    + apply pop_leading_Forall, pop_trailing_Forall. now apply HT.
    + apply pop_leading_Forall, pop_trailing_Forall. now apply HT.
    + now apply pop_leading_Forall, pop_trailing_Forall.
Qed.

Lemma join_snoc (sep : str) (L : list str) (x : str) :
  join sep (L ++ [x]) = concat (map (fun l => l ++ sep) L) ++ x.
Proof.
  induction L as [|p L IH]; [reflexivity|].
  change ((p :: L) ++ [x]) with (p :: (L ++ [x])).
  rewrite join_cons by (destruct L; discriminate).
  rewrite IH. simpl. now rewrite <- !app_assoc.
Qed.

Lemma splitlines_trimmed (L : list str) :
  Forall (Forall (fun c => is_linebreak c = false)) L ->
  hd_error (rev L) <> Some [] ->
  splitlines (join [LF] L) = L.
Proof.
  intros NL Hlast. destruct L as [|p L'] using rev_ind; [reflexivity|].
  apply splitlines_join; [exact NL|destruct L'; discriminate|].
  rewrite last_last. rewrite rev_app_distr in Hlast. simpl in Hlast.
  intros ->. now apply Hlast.
Qed.

(** X1.  Whatever the input, the result of [trim] holds no tab and no
    line boundary other than the line feed; it has no whitespace at its
    end, none of its lines has trailing whitespace, and its first line
    is not empty. *)
Theorem trim_result_shape (d : option str) (t : str) :
  trim d = OK t ->
  Forall (fun c => is_tab c = false /\ (is_linebreak c = true -> c = LF)) t /\
  rstrip t = t /\
  Forall (fun l => rstrip l = l) (splitlines t) /\
  hd_error (splitlines t) <> Some [].
Proof.
  intros H.
  assert (Hs : exists s, trim (Some s) = OK t).
  { destruct d as [s|]; [eauto|]. exists []. exact H. }
  clear H. destruct Hs as (s & H).
  destruct (trim_lines s) as (L & E & NT & NL & R & Hh & Hl).
  rewrite E in H. injection H as <-.
  rewrite (splitlines_trimmed L NL Hl). repeat split; auto.
  - apply join_Forall.
    + constructor; [|constructor]. split; [reflexivity|reflexivity].
    + rewrite Forall_forall in *. intros l Hin.
      specialize (NT l Hin). specialize (NL l Hin).
      rewrite Forall_forall in *. intros c Hc. split; [now apply NT|].
      intros B. rewrite (NL c Hc) in B. discriminate.
  - destruct L as [|x L'] using rev_ind; [reflexivity|].
    rewrite join_snoc. rewrite rev_app_distr in Hl. simpl in Hl.
    apply Forall_app in R. destruct R as [_ Rx].
    inversion Rx as [|? ? Rx' _]; subst.
    assert (Bx : blank x = false).
    { apply rstrip_fixed_nonblank; [exact Rx'|]. intros ->. now apply Hl. }
    rewrite rstrip_app_nonblank by exact Bx. now rewrite Rx'.
Qed.

Lemma trim_result_shape_witness :
  trim (Some sample_indented)
  = OK (lit "Summary." ++ [LF] ++ [LF] ++ lit "details" ++ [LF] ++
        lit "  more") /\
  rstrip (lit "Summary." ++ [LF] ++ [LF] ++ lit "details" ++ [LF] ++
          lit "  more")
  = lit "Summary." ++ [LF] ++ [LF] ++ lit "details" ++ [LF] ++ lit "  more".
Proof.
  assert (h : trim (Some sample_indented)
              = OK (lit "Summary." ++ [LF] ++ [LF] ++ lit "details" ++ [LF] ++
                    lit "  more")) by reflexivity.
  exact (conj h (proj1 (proj2 (trim_result_shape _ _ h)))).
Defined.

(** X2.  [trim] applied three times gives what it gives applied twice:
    the first line of a result of [trim] is not blank, so the second
    pass is the last that changes anything. *)
Theorem trim_stable_after_two (s : str) :
  exists t u,
    trim (Some s) = OK t /\ trim (Some t) = OK u /\ trim (Some u) = OK u.
Proof.
  destruct (trim_lines s) as (L & E & NT & NL & R & Hh & Hl).
  exists (join [LF] L). destruct L as [|first rest].
  - exists []. split; [exact E|]. split; reflexivity.
  - assert (Hf : first <> []) by (intros ->; now apply Hh).
    inversion R as [|? ? Rf _]; subst.
    pose proof (rstrip_fixed_nonblank _ Rf Hf) as B.
    assert (Es : splitlines (expandtabs (join [LF] (first :: rest)))
                 = first :: rest).
    { unfold expandtabs. rewrite expandtabs_from_id.
      - now apply splitlines_trimmed.
      - apply join_Forall; [repeat constructor|exact NT]. }
    destruct (trim_twice _ _ _ Es B) as (u & Hu & Huu).
    exists u. auto.
Qed.

(** ** The normaliser: the text is kept *)

Lemma text_of_app (a b : str) : text_of (a ++ b) = text_of a ++ text_of b.
Proof. apply filter_app. Qed.

Lemma text_of_blank (s : str) : blank s = true -> text_of s = [].
Proof.
  unfold blank, text_of. induction s as [|c s IH]; simpl; [reflexivity|].
  destruct (is_space c); simpl; [exact IH|discriminate].
Qed.

Lemma text_of_lstrip (s : str) : text_of (lstrip s) = text_of s.
Proof.
  unfold text_of. induction s as [|c s IH]; simpl; [reflexivity|].
  destruct (is_space c) eqn:E; simpl; [exact IH|]. now rewrite E.
Qed.

Lemma text_of_rev (s : str) : text_of (rev s) = rev (text_of s).
Proof.
  unfold text_of. induction s as [|c s IH]; simpl; [reflexivity|].
  rewrite filter_app, IH. simpl. destruct (negb (is_space c)); simpl;
    [reflexivity|apply app_nil_r].
Qed.

Lemma text_of_rstrip (s : str) : text_of (rstrip s) = text_of s.
Proof.
  unfold rstrip. now rewrite text_of_rev, text_of_lstrip, text_of_rev,
    rev_involutive.
Qed.

Lemma text_of_strip (s : str) : text_of (strip s) = text_of s.
Proof. unfold strip. now rewrite text_of_rstrip, text_of_lstrip. Qed.

Lemma text_of_skipn (k : nat) (l : str) :
  k <= indentation l -> text_of (skipn k l) = text_of l.
Proof.
  intros H. rewrite <- (firstn_skipn k l) at 2.
  rewrite text_of_app, (text_of_blank (firstn k l)); [reflexivity|].
  now apply indentation_firstn.
Qed.

Lemma text_of_expandtabs_from (col : nat) (s : str) :
  text_of (expandtabs_from col s) = text_of s.
Proof.
  revert col; induction s as [|c s IH]; intros col; simpl; [reflexivity|].
  destruct (is_tab c) eqn:T.
  - rewrite text_of_app, IH, (tab_is_space _ T). simpl.
    rewrite text_of_blank; [reflexivity|].
    apply forallb_forall. intros x Hx. apply repeat_spec in Hx. now subst.
  - simpl. now rewrite IH.
Qed.

Lemma text_of_splitlines (s : str) :
  concat (map text_of (splitlines s)) = text_of s.
Proof.
  induction s as [s IH] using str_length_ind.
  destruct s as [|c s]; [reflexivity|]. rewrite splitlines_cons.
  destruct (is_linebreak c) eqn:E.
  - simpl. rewrite (linebreak_is_space _ E). simpl.
    rewrite IH by (simpl; pose proof (after_break_length c s); lia).
    destruct s as [|c' s'']; [reflexivity|]. simpl.
    destruct (N.eqb c CR && N.eqb c' LF) eqn:B; [|reflexivity].
    apply andb_true_iff in B. destruct B as [_ B].
    apply N.eqb_eq in B. subst c'. reflexivity.
  - assert (IHs := IH s (Nat.lt_succ_diag_r _)).
    destruct (splitlines s) as [|l ls]; simpl in *.
    + rewrite <- IHs. destruct (negb (is_space c)); reflexivity.
    + rewrite <- IHs. destruct (negb (is_space c)); reflexivity.
Qed.

Lemma text_of_join (L : list str) :
  text_of (join [LF] L) = concat (map text_of L).
Proof.
  induction L as [|p L IH]; [reflexivity|].
  destruct L as [|q L'].
  - simpl. now rewrite app_nil_r.
  - rewrite join_cons by discriminate.
    rewrite !text_of_app, IH. reflexivity.
Qed.

Lemma concat_text_pop_leading (T : list str) :
  concat (map text_of (pop_leading T)) = concat (map text_of T).
Proof.
  induction T as [|x T IH]; [reflexivity|]. destruct x; [exact IH|reflexivity].
Qed.

Lemma concat_text_pop_trailing (T : list str) :
  concat (map text_of (pop_trailing T)) = concat (map text_of T).
Proof.
  destruct (pop_trailing_spec T) as (b & E & Hb & _).
  rewrite E at 2. rewrite map_app, concat_app.
  assert (Z : concat (map text_of b) = []).
  { clear E. induction Hb as [|x b Hx _ IH]; [reflexivity|]. now subst. }
  rewrite Z. now rewrite app_nil_r.
Qed.

(** X3.  [trim] removes and inserts whitespace only: the characters of
    its result that are not whitespace are those of the argument, in the
    same order. *)
Theorem trim_keeps_text (s t : str) :
  (Z.of_nat (length (expandtabs s)) <= sys_maxsize)%Z ->
  trim (Some s) = OK t ->
  text_of t = text_of s.
Proof.
  intros Hlen H. destruct s as [|c d]; [now injection H as <-|].
  assert (Hne : c :: d <> []) by discriminate.
  pose proof (splitlines_nonempty _ (expandtabs_nonempty _ Hne)) as Hl.
  destruct (splitlines (expandtabs (c :: d))) as [|first rest] eqn:E;
    [congruence|].
  rewrite (trim_unfold _ _ _ Hne E) in H. injection H as <-.
  rewrite text_of_join, concat_text_pop_leading, concat_text_pop_trailing.
  rewrite <- (text_of_expandtabs_from 0 (c :: d)).
  fold (expandtabs (c :: d)).
  rewrite <- (text_of_splitlines (expandtabs (c :: d))), E.
  simpl. rewrite text_of_strip. f_equal.
  destruct (min_indent rest <? sys_maxsize)%Z eqn:K.
  - apply Z.ltb_lt in K. destruct (min_indent_found _ K) as [Hlow _].
    f_equal. rewrite map_map. apply map_ext_in. intros l Hin.
    rewrite text_of_rstrip. destruct (blank l) eqn:B.
    + rewrite (text_of_blank l B). apply text_of_blank.
      now apply blank_skipn_true.
    + apply text_of_skipn. now apply Hlow.
  - apply Z.ltb_ge in K. symmetry.
    assert (Hb : forall l, In l rest -> blank l = true).
    { intros l Hin. destruct (blank l) eqn:B; [reflexivity|].
      pose proof (fold_indent_lower rest sys_maxsize l Hin B) as F.
      fold (min_indent rest) in F.
      pose proof (line_length_bound _ _ _ _ E Hin) as Ll.
      pose proof (lstrip_length l) as LL.
      assert (lstrip l <> [])
        by (intros X; apply lstrip_blank in X; congruence).
      destruct (lstrip l); [congruence|]. simpl in LL. lia. }
    assert (G : forall r, (forall l, In l r -> blank l = true) ->
                          concat (map text_of r) = []).
    { induction r as [|l r IH]; intros Hr; [reflexivity|].
      simpl. rewrite (text_of_blank l) by (apply Hr; now left).
      apply IH. intros l' Hl'. apply Hr. now right. }
    now apply G.
Qed.

Lemma trim_keeps_text_witness :
  (Z.of_nat (length (expandtabs sample_indented)) <= sys_maxsize)%Z /\
  trim (Some sample_indented)
  = OK (lit "Summary." ++ [LF] ++ [LF] ++ lit "details" ++ [LF] ++
        lit "  more") /\
  text_of (lit "Summary." ++ [LF] ++ [LF] ++ lit "details" ++ [LF] ++
           lit "  more")
  = text_of sample_indented.
Proof.
  assert (h1 : (Z.of_nat (length (expandtabs sample_indented))
                <= sys_maxsize)%Z) by (vm_compute; discriminate).
  assert (h2 : trim (Some sample_indented)
               = OK (lit "Summary." ++ [LF] ++ [LF] ++ lit "details" ++ [LF] ++
                     lit "  more")) by reflexivity.
  exact (conj h1 (conj h2 (trim_keeps_text _ _ h1 h2))).
Defined.

(** ** Docstrings *)

(** X4.  [format_docstring] never raises, and its result is never empty:
    it is the normalised docstring followed by a line feed, and it is
    the line feed alone for an object whose docstring is [None] or
    empty. *)
Theorem format_docstring_line (doc : option str) :
  exists t,
    trim (Some (or_empty doc)) = OK t /\
    format_docstring doc = OK (t ++ [LF]) /\
    (or_empty doc = [] -> t = []).
Proof.
  destruct (trim_total (Some (or_empty doc))) as (t & E).
  exists t. split; [exact E|]. split.
  - unfold format_docstring. now rewrite E.
  - intros Z. rewrite Z in E. now injection E as <-.
Qed.

Section DocstringFacts.

Context {V Sch : Type} {X : Collaborators V Sch}.

(** X5.  [_resolve_obj_to_docstring] returns the empty text in one case
    only, a view given by name when [args] has no class; every other
    result ends with a line feed.  The one exception it raises is the
    [AttributeError] of a name that the class does not have. *)
Theorem resolve_outcomes (obj : handler) (a : args Sch) :
  match resolve_obj_to_docstring obj a with
  | OK t =>
      (t = [] <-> exists s, obj = named s /\ klass a = None) /\
      (t <> [] -> exists t', t = t' ++ [LF])
  | Raise e =>
      exists s ob,
        obj = named s /\ klass a = Some ob /\
        lookup (str_lower s) ob = None /\
        e = AttributeError (str_lower s)
  end.
Proof.
  unfold resolve_obj_to_docstring. destruct obj as [s|doc].
  - destruct (klass a) as [ob|] eqn:K.
    + destruct (lookup (str_lower s) ob) as [doc|] eqn:L.
      * destruct (format_docstring_line doc) as (t & _ & -> & _). split.
        -- split; [intros E; now destruct t|].
           intros (s' & _ & E). discriminate.
        -- intros _. now exists t.
      * exists s, ob. auto.
    + split; [|congruence]. split; [|reflexivity]. intros _. now exists s.
  - destruct (format_docstring_line doc) as (t & _ & -> & _). split.
    + split; [intros E; now destruct t|].
      intros (s' & E & _). discriminate.
    + intros _. now exists t.
Qed.

End DocstringFacts.

(** ** The option converters *)

Lemma split_on_nonempty (sep : char) (s : str) : split_on sep s <> [].
Proof.
  destruct s as [|c s]; simpl; [discriminate|].
  destruct (N.eqb c sep); [discriminate|].
  destruct (split_on sep s); discriminate.
Qed.

Lemma split_on_length (sep : char) (s : str) :
  length (split_on sep s) = S (count_occ N.eq_dec s sep).
Proof.
  induction s as [|c s IH]; [reflexivity|]. simpl.
  destruct (N.eqb c sep) eqn:E.
  - apply N.eqb_eq in E. subst c.
    destruct (N.eq_dec sep sep); [|congruence]. simpl. now rewrite IH.
  - apply N.eqb_neq in E.
    destruct (N.eq_dec c sep); [congruence|].
    pose proof (split_on_nonempty sep s).
    destruct (split_on sep s); [congruence|]. exact IH.
Qed.

Lemma split_on_no_sep (sep : char) (s : str) :
  Forall (fun piece => ~ In sep piece) (split_on sep s).
Proof.
  induction s as [|c s IH]; simpl.
  - constructor; [tauto|constructor].
  - destruct (N.eqb c sep) eqn:E.
    + constructor; [simpl; tauto|exact IH].
    + apply N.eqb_neq in E. destruct (split_on sep s) as [|l ls].
      * constructor; [|constructor]. simpl. intros [H|[]]. congruence.
      * inversion IH; subst. constructor; [|assumption].
        simpl. intros [H|H]; [congruence|auto].
Qed.

Lemma strip_not_In (x : char) (s : str) : ~ In x s -> ~ In x (strip s).
Proof.
  intros H Hin. apply H.
  assert (F : Forall (fun c => c <> x) s).
  { apply Forall_forall. intros c Hc ->. now apply H. }
  apply (strip_Forall (fun c => c <> x)) in F.
  rewrite Forall_forall in F. now destruct (F x Hin).
Qed.

(** X6.  For an argument that is present, [convert_to_list] returns one
    item more than the argument has commas, so never the empty list;
    every item is stripped of surrounding whitespace and holds no comma.
    [convert_to_list_required] returns the same list, and raises
    [ValueError] exactly when the argument is [None], where
    [convert_to_list] returns the empty list. *)
Theorem convert_to_list_items (a : str) :
  length (convert_to_list (Some a)) = S (count_occ N.eq_dec a COMMA) /\
  Forall (fun item => strip item = item /\ ~ In COMMA item)
         (convert_to_list (Some a)) /\
  convert_to_list_required (Some a) = OK (convert_to_list (Some a)) /\
  convert_to_list None = [] /\
  (forall argument,
      (exists e, convert_to_list_required argument = Raise e)
      <-> argument = None).
Proof.
  unfold convert_to_list. split; [|split; [|split; [|split]]].
  - now rewrite length_map, split_on_length.
  - rewrite Forall_map. eapply Forall_impl; [|apply split_on_no_sep].
    intros piece H. split; [apply strip_idem|now apply strip_not_In].
  - reflexivity.
  - reflexivity.
  - intros [x|]; split.
    + intros (e & H). discriminate.
    + discriminate.
    + reflexivity.
    + intros _. eexists. reflexivity.
Qed.

Lemma split_on_piece (sep : char) (x r : str) :
  ~ In sep x -> split_on sep (x ++ sep :: r) = x :: split_on sep r.
Proof.
  induction x as [|c x IH]; intros H; simpl.
  - now rewrite N.eqb_refl.
  - destruct (N.eqb c sep) eqn:E.
    + apply N.eqb_eq in E. subst c. exfalso. apply H. now left.
    + rewrite IH; [reflexivity|]. intros Hin. apply H. now right.
Qed.

Lemma split_on_whole (sep : char) (x : str) :
  ~ In sep x -> split_on sep x = [x].
Proof.
  induction x as [|c x IH]; intros H; simpl; [reflexivity|].
  destruct (N.eqb c sep) eqn:E.
  - apply N.eqb_eq in E. subst c. exfalso. apply H. now left.
  - rewrite IH; [reflexivity|]. intros Hin. apply H. now right.
Qed.

Lemma strip_after_blank (w p : str) :
  blank w = true -> strip p = p -> strip (w ++ p) = p.
Proof.
  intros B P. unfold strip in *. now rewrite lstrip_app_blank.
Qed.

Lemma convert_join (items : list str) (w : str) :
  blank w = true -> ~ In COMMA w -> items <> [] ->
  Forall (fun item => strip item = item /\ ~ In COMMA item) items ->
  map strip (split_on COMMA (w ++ join (lit ", ") items)) = items.
Proof.
  intros Bw Cw Hne F. revert w Bw Cw.
  induction F as [|p L [Sp Cp] HL IH]; [congruence|]. intros w Bw Cw.
  destruct L as [|q L'].
  - simpl join. rewrite split_on_whole.
    + simpl. now rewrite strip_after_blank.
    + intros Hin. apply in_app_or in Hin. tauto.
  - rewrite join_cons by discriminate.
    change (lit ", " ++ join (lit ", ") (q :: L'))
      with (COMMA :: ([SPACE] ++ join (lit ", ") (q :: L'))).
    rewrite app_assoc, split_on_piece.
    + cbn [map]. rewrite strip_after_blank by assumption. f_equal.
      apply IH; [discriminate|reflexivity|].
      intros [H|[]]. discriminate.
    + intros Hin. apply in_app_or in Hin. tauto.
Qed.

(** X7.  Writing a list of names with a comma and a space between them
    and converting the text gives the names back, as long as there is
    at least one name and each is free of commas and of surrounding
    whitespace. *)
Theorem convert_to_list_round_trip (items : list str) :
  items <> [] ->
  Forall (fun item => strip item = item /\ ~ In COMMA item) items ->
  convert_to_list (Some (join (lit ", ") items)) = items.
Proof.
  intros Hne F. unfold convert_to_list.
  now apply (convert_join items []).
Qed.

Lemma convert_to_list_round_trip_witness :
  [lit "name1"; lit "name2"] <> [] /\
  convert_to_list (Some (join (lit ", ") [lit "name1"; lit "name2"]))
  = [lit "name1"; lit "name2"].
Proof.
  assert (h1 : [lit "name1"; lit "name2"] <> []) by discriminate.
  assert (h2 : Forall (fun item => strip item = item /\ ~ In COMMA item)
                      [lit "name1"; lit "name2"]).
  { repeat constructor; simpl; intros H;
      repeat (destruct H as [H|H]; [discriminate H|]); exact H. }
  exact (conj h1 (convert_to_list_round_trip _ h1 h2)).
Defined.

(** ** The renderer: schema fields, descriptions, layout *)


Section LayoutFacts.

Context {V Sch : Type} {X : Collaborators V Sch}.

Variable opts : options.



(** X9.  A service whose description is blank (empty or whitespace
    only) is rendered exactly as the same service with no description:
    no node is added for it. *)
Theorem blank_description_is_skipped (service_id : str) (s : service Sch)
    (d : str) :
  description s = Some d -> blank d = true ->
  render_service_as opts service_id s
  = render_service_as opts service_id
      {| name := name s; path := path s; description := None;
         definitions := definitions s |}.
Proof.
  intros E B. unfold render_service_as.
  cbn [name path description definitions]. rewrite E.
  rewrite (trim_blank d B). reflexivity.
Qed.

Lemma add_validators_concat (vs : list handler) (a : args Sch)
    (docstring t : str) :
  add_validators vs a docstring = OK t ->
  exists docs,
    map_result (fun v => resolve_obj_to_docstring v a) vs = OK docs /\
    t = docstring ++ concat docs.
Proof.
  revert docstring. induction vs as [|v vs IH]; intros docstring H; simpl in H.
  - injection H as <-. exists []. now rewrite app_nil_r.
  - bind_split H as d Hd. destruct (IH _ H) as (docs & Hm & ->).
    exists (d :: docs). simpl. rewrite Hd, Hm. simpl.
    now rewrite <- app_assoc.
Qed.

(** X10.  The children of a method section are, in this order: the
    title, the schema block when [args] has a schema, the accepted
    content types when [args] has them, the docstring node when there is
    one, and the response.  The docstring that is parsed is the view's
    docstring after the docstring replacements, followed by the
    docstrings of the validators in order, to which the replacements are
    not applied. *)
Theorem method_section_layout (service_id method : str) (view : handler)
    (a : args Sch) (n : node) :
  render_definition opts service_id (method, view, a) = OK (Some n) ->
  exists view_doc replacements validator_docs doc_node r schema_nodes,
    resolve_obj_to_docstring view a = OK view_doc /\
    get_dict opts "docstring-replace" = OK replacements /\
    map_result (fun v => resolve_obj_to_docstring v a)
               (match validators a with Some vs => vs | None => [] end)
    = OK validator_docs /\
    transform_all
      (rst2node (replace_all replacements view_doc ++ concat validator_docs))
    = OK doc_node /\
    renderer a = Some r /\
    match schema a with
    | Some sch =>
        exists attrs, render_schema sch = OK attrs /\ schema_nodes = [attrs]
    | None => schema_nodes = []
    end /\
    n = Node section [service_id ++ lit "-" ++ method] None
          ([text_node title method] ++ schema_nodes ++
           match accept a with
           | Some acc => [render_accept acc]
           | None => []
           end ++
           match doc_node with
           | Some node => [node]
           | None => []
           end ++
           [response_node r]).
Proof.
  unfold render_definition.
  destruct (str_eqb method (lit "HEAD")) eqn:Eh; [discriminate|].
  intros H. bind_split H as ignored Hig.
  destruct (mem method ignored) eqn:Em; [discriminate|].
  bind_split H as docstring Hdoc. bind_split H as replacements Hrep.
  bind_split H as method_node Hm. bind_split H as docstring' Hval.
  bind_split H as transformed Htr. bind_split H as r Hr.
  injection H as <-.
  destruct (renderer a) as [r'|] eqn:Er; [|discriminate].
  injection Hr as <-.
  destruct (add_validators_concat _ _ _ _ Hval) as (docs & Hdocs & ->).
  exists docstring, replacements, docs, transformed, r'.
  exists (match schema a with
          | Some sch =>
              match render_schema sch with
              | OK attrs => [attrs]
              | Raise _ => []
              end
          | None => []
          end).
  repeat (split; [assumption || reflexivity|]).
  destruct (schema a) as [sch|].
  - bind_split Hm as attrs Hattrs. injection Hm as <-. rewrite Hattrs.
    split; [now exists attrs|].
    destruct (accept a); destruct transformed; reflexivity.
  - injection Hm as <-. split; [reflexivity|].
    destruct (accept a); destruct transformed; reflexivity.
Qed.

End LayoutFacts.


Lemma blank_description_is_skipped_witness :
  blank (lit "   ") = true /\
  render_service_as [] (lit "service-0")
    {| name := lit "foo"; path := lit "/foo";
       description := Some (lit "   "); definitions := [sample_get] |}
  = render_service_as [] (lit "service-0")
      {| name := lit "foo"; path := lit "/foo"; description := None;
         definitions := [sample_get] |}.
Proof.
  assert (h : blank (lit "   ") = true) by reflexivity.
  exact (conj h (blank_description_is_skipped
                   [] (lit "service-0")
                   {| name := lit "foo"; path := lit "/foo";
                      description := Some (lit "   ");
                      definitions := [sample_get] |}
                   (lit "   ") eq_refl h)).
Defined.

Lemma method_section_layout_witness :
  render_definition [] (lit "service-0") sample_put
  = OK (Some (match render_definition [] (lit "service-0") sample_put with
              | OK (Some n) => n
              | _ => empty_node section
              end)) /\
  exists view_doc validator_docs,
    resolve_obj_to_docstring (named (lit "PUT")) sample_put_args
    = OK view_doc /\
    map_result (fun v => resolve_obj_to_docstring v sample_put_args)
               [object None; named (lit "put")]
    = OK validator_docs.
Proof.
  assert (h : render_definition [] (lit "service-0") sample_put
              = OK (Some (match render_definition [] (lit "service-0")
                                                   sample_put with
                          | OK (Some n) => n
                          | _ => empty_node section
                          end))) by (vm_compute; reflexivity).
  destruct (method_section_layout [] (lit "service-0") (lit "PUT")
                                  (named (lit "PUT")) sample_put_args _ h)
    as (view_doc & _ & validator_docs & _ & _ & _ & Hv & _ & Hvs & _).
  exact (conj h (ex_intro _ view_doc (ex_intro _ validator_docs
                                        (conj Hv Hvs)))).
Defined.

(** ** The directive: identifiers, selection, module cache *)

Lemma lit_inj (a b : string) : lit a = lit b -> a = b.
Proof.
  unfold lit. intros H.
  rewrite <- (string_of_list_ascii_of_string a),
          <- (string_of_list_ascii_of_string b).
  f_equal. revert H.
  generalize (list_ascii_of_string a) (list_ascii_of_string b).
  induction l as [|x l IH]; intros [|y l']; simpl; try discriminate;
    [reflexivity|].
  intros H. injection H as Hx Hl. f_equal; [|now apply IH].
  rewrite <- (ascii_N_embedding x), <- (ascii_N_embedding y). now f_equal.
Qed.

Lemma norm_not_nil (d : Decimal.signed_int) :
  Decimal.norm d <> Decimal.Pos Decimal.Nil /\
  Decimal.norm d <> Decimal.Neg Decimal.Nil.
Proof.
  destruct d as [u|u]; simpl.
  - split; [|discriminate]. intros H. injection H as H.
    now apply DecimalFacts.unorm_nonnil in H.
  - destruct (Decimal.nzhead u); split; discriminate.
Qed.

Lemma decimal_inj (n m : Z) : decimal n = decimal m -> n = m.
Proof.
  unfold decimal. intros H. apply lit_inj in H.
  apply DecimalZ.to_int_inj.
  assert (N : forall z, Z.to_int z = Decimal.norm (Z.to_int z)).
  { intros z. rewrite <- DecimalZ.to_of. now rewrite DecimalZ.of_to. }
  assert (I : forall z, NilZero.int_of_string
                          (NilZero.string_of_int (Z.to_int z))
                        = Some (Z.to_int z)).
  { intros z. apply NilZero.isi; rewrite N; apply norm_not_nil. }
  pose proof (I n) as In. rewrite H, I in In. now injection In.
Qed.

Lemma service_id_of_inj (i j : nat) : service_id_of i = service_id_of j -> i = j.
Proof.
  unfold service_id_of. intros H. apply app_inv_head in H.
  apply decimal_inj in H. lia.
Qed.

Lemma NoDup_map_injective {A B : Type} (f : A -> B) (l : list A) :
  (forall x y, f x = f y -> x = y) -> NoDup l -> NoDup (map f l).
Proof.
  intros Hf. induction 1 as [|x l Hx _ IH]; simpl; constructor; auto.
  intros Hin. apply in_map_iff in Hin. destruct Hin as (y & E & Hy).
  apply Hf in E. now subst.
Qed.

Section DirectiveFacts.

Context {V Sch : Type} {X : Collaborators V Sch}.

Variable opts : options.

Lemma add_tag_ids (p : node) (c : option node) :
  node_tag (add p c) = node_tag p /\ node_ids (add p c) = node_ids p.
Proof. destruct p, c; split; reflexivity. Qed.

Lemma render_definitions_tag_ids (service_id : str)
    (defs : list (definition Sch)) (node0 n : node) :
  render_definitions opts service_id defs node0 = OK n ->
  node_tag n = node_tag node0 /\ node_ids n = node_ids node0.
Proof.
  revert node0. induction defs as [|d defs IH]; intros node0 H; simpl in H.
  - injection H as <-. now split.
  - bind_split H as m Hm. destruct (IH _ H) as [-> ->]. apply add_tag_ids.
Qed.

Lemma render_service_as_ids (service_id : str) (s : service Sch) (n : node) :
  render_service_as opts service_id s = OK n ->
  node_tag n = section /\ node_ids n = [service_id].
Proof.
  unfold render_service_as. intros H.
  bind_split H as replacements Hrep. bind_split H as node0 Hdesc.
  destruct (render_definitions_tag_ids _ _ _ _ H) as [-> ->].
  destruct (description s) as [d|].
  - bind_split Hdesc as t Ht. injection Hdesc as <-.
    rewrite !add_Node. now split.
  - injection Hdesc as <-. now split.
Qed.

Lemma mapM_render_ids (sel : list (service Sch)) (w w' : world Sch)
    (nodes : list node) :
  mapM (render_service opts) sel w = (OK nodes, w') ->
  serialno w' = serialno w + length nodes /\
  map node_ids nodes
  = map (fun i => [service_id_of i]) (seq (serialno w) (length nodes)) /\
  Forall (fun n => node_tag n = section) nodes /\
  Forall2 (fun s n => exists service_id,
                        render_service_as opts service_id s = OK n)
          sel nodes.
Proof.
  revert w nodes. induction sel as [|s sel IH]; intros w nodes H.
  - injection H as <- <-. simpl. repeat split; try constructor. lia.
  - rewrite mapM_cons, render_service_unfold in H.
    destruct (render_service_as opts _ s) as [y|e] eqn:Ey; [|discriminate].
    destruct (mapM (render_service opts) sel _) as [[ys|e] w2] eqn:Em;
      [|discriminate].
    injection H as <- <-.
    destruct (IH _ _ Em) as (Hn & Hids & Hsec & Hf). simpl in Hn, Hids.
    destruct (render_service_as_ids _ _ _ Ey) as [Ht Hi].
    repeat split.
    + simpl. lia.
    + simpl. rewrite Hi, Hids. reflexivity.
    + now constructor.
    + constructor; [eauto|exact Hf].
Qed.

Lemma import_modules_serialno (ms : list str) (w w' : world Sch)
    (r : result unit) :
  import_modules ms w = (r, w') -> serialno w' = serialno w.
Proof.
  revert w. induction ms as [|m ms IH]; intros w H.
  - now injection H as _ <-.
  - cbn [import_modules] in H. unfold bindM in H.
    destruct (mem m (MODULES w)).
    + destruct (reload m) as [registered|e].
      * apply IH in H. exact H.
      * now injection H as _ <-.
    + destruct (import_module m) as [registered|e].
      * apply IH in H. exact H.
      * now injection H as _ <-.
Qed.

Lemma load_services_serialno (w w' : world Sch) (r : result unit) :
  load_services opts w = (r, w') -> serialno w' = serialno w.
Proof.
  unfold load_services, bindM, lift, ret. intros H.
  destruct (get_text opts "app") as [app_name|e];
    [|now injection H as _ <-].
  assert (G : forall w0 : world Sch,
             serialno w0 = serialno w ->
             match get_list opts "modules" with
             | OK a => import_modules a w0
             | Raise e => (Raise e, w0)
             end = (r, w') -> serialno w' = serialno w).
  { intros w0 E0 H0. destruct (get_list opts "modules") as [ms|e].
    - apply import_modules_serialno in H0. congruence.
    - injection H0 as _ <-. exact E0. }
  destruct app_name as [[|c a]|].
  - now apply (G w).
  - destruct (app_main (c :: a)) as [registered|e].
    + now apply (G (register registered w)).
    + now injection H as _ <-.
  - now apply (G w).
Qed.

(** A run that returns has loaded, selected, cleared and rendered. *)
Lemma run_returns (w w' : world Sch) (nodes : list node) :
  run opts w = (OK nodes, w') ->
  exists w1 names exclude,
    load_services opts w = (OK tt, w1) /\
    selection opts = OK names /\
    get_names opts "exclude" = OK exclude /\
    mapM (render_service opts) (selected_services names exclude w1)
         (clear_services w1) = (OK nodes, w').
Proof.
  unfold run, bindM, lift. intros H.
  destruct (load_services opts w) as [[[]|e] w1] eqn:L; [|discriminate].
  destruct (selection opts) as [names|e]; [|discriminate].
  destruct (get_names opts "exclude") as [exclude|e]; [|discriminate].
  exists w1, names, exclude. auto.
Qed.

(** X11.  When [run] returns, it has drawn one serial number for each
    node it returns: the nodes are sections whose identifiers are
    [service-n], [service-(n+1)], ... from the serial number at the
    start, so no two of them have the same identifier, and the next
    invocation starts after the last. *)
Theorem run_section_ids (w w' : world Sch) (nodes : list node) :
  run opts w = (OK nodes, w') ->
  serialno w' = serialno w + length nodes /\
  map node_ids nodes
  = map (fun i => [service_id_of i]) (seq (serialno w) (length nodes)) /\
  Forall (fun n => node_tag n = section) nodes /\
  NoDup (map node_ids nodes).
Proof.
  intros H.
  destruct (run_returns _ _ _ H) as (w1 & names & exclude & L & _ & _ & R).
  apply load_services_serialno in L.
  destruct (mapM_render_ids _ _ _ _ R) as (Hn & Hids & Hsec & _).
  cbn [serialno clear_services] in Hn, Hids. rewrite L in Hn, Hids.
  repeat split; auto.
  rewrite Hids. apply NoDup_map_injective; [|apply seq_NoDup].
  intros i j E. apply service_id_of_inj.
  exact (f_equal (fun l => hd [] l) E).
Qed.

Lemma selected_services_named_in (names : list str) (w : world Sch) :
  selected_services names None w = filter (named_in names) (SERVICES w).
Proof.
  unfold selected_services, get_services. apply filter_ext. intros s.
  now destruct names.
Qed.

(** X12.  With options parsed by the host, [run] renders the registered
    services in registry order and returns one node for each: every
    service when neither [services] nor [service] is given, and
    otherwise those whose name is among the names given. *)
Theorem run_renders_selected (w w' : world Sch) (nodes : list node) :
  declared opts ->
  run opts w = (OK nodes, w') ->
  exists w1 names,
    load_services opts w = (OK tt, w1) /\
    selection opts = OK names /\
    (lookup (lit "services") opts = None ->
     lookup (lit "service") opts = None -> names = []) /\
    Forall2 (fun s n => exists service_id,
                          render_service_as opts service_id s = OK n)
            (filter (named_in names) (SERVICES w1)) nodes.
Proof.
  intros D H.
  destruct (run_returns _ _ _ H) as (w1 & names & exclude & L & Sel & Ex & R).
  rewrite (declared_no_exclude opts D) in Ex. injection Ex as <-.
  rewrite selected_services_named_in in R.
  exists w1, names. repeat split; auto.
  - intros N1 N2. unfold selection, get_list, get_text in Sel.
    rewrite N1, N2 in Sel. simpl in Sel. now injection Sel.
  - now destruct (mapM_render_ids _ _ _ _ R) as (_ & _ & _ & F).
Qed.

Lemma mem_In (x : str) (l : list str) : mem x l = true <-> In x l.
Proof.
  unfold mem. rewrite existsb_exists. split.
  - intros (y & Hy & E). apply str_eqb_eq in E. now subst.
  - intros H. exists x. split; [exact H|apply str_eqb_refl].
Qed.

(** X13.  The import loop keeps the module cache a set that only grows:
    after it has run without an exception the cache holds what it held
    and every listed module, each once.  The registry only grows during
    the loop, and when every listed module is already cached the cache
    is unchanged and what is registered is what reloading the modules
    registers. *)
Theorem import_modules_cache (ms : list str) (w w' : world Sch) :
  import_modules ms w = (OK tt, w') ->
  (forall m, In m (MODULES w') <-> In m (MODULES w) \/ In m ms) /\
  (NoDup (MODULES w) -> NoDup (MODULES w')) /\
  (exists registered, SERVICES w' = SERVICES w ++ registered) /\
  ((forall m, In m ms -> In m (MODULES w)) ->
   MODULES w' = MODULES w /\
   exists registered,
     modules_register ms = OK registered /\
     SERVICES w' = SERVICES w ++ registered).
Proof.
  revert w. induction ms as [|m ms IH]; intros w H.
  - injection H as <-. split; [|split; [|split]].
    + intros m. simpl. tauto.
    + auto.
    + exists []. now rewrite app_nil_r.
    + intros _. split; [reflexivity|]. exists [].
      split; [reflexivity|now rewrite app_nil_r].
  - cbn [import_modules] in H. unfold bindM in H.
    destruct (mem m (MODULES w)) eqn:Em.
    + apply mem_In in Em.
      destruct (reload m) as [registered|e] eqn:Er; [|discriminate].
      destruct (IH _ H) as (Hin & Hnd & (R & HR) & Hc). simpl in *.
      split; [|split; [|split]].
      * intros x. rewrite Hin. split; [tauto|].
        intros [?|[<-|?]]; auto.
      * exact Hnd.
      * exists (registered ++ R). now rewrite HR, app_assoc.
      * intros Hall. destruct Hc as (-> & R' & Hm & HR').
        { intros x Hx. apply Hall. now right. }
        split; [reflexivity|]. exists (registered ++ R').
        cbn [modules_register]. rewrite Er, Hm. cbn [bind].
        split; [reflexivity|]. now rewrite HR', app_assoc.
    + destruct (import_module m) as [registered|e] eqn:Ei; [|discriminate].
      destruct (IH _ H) as (Hin & Hnd & (R & HR) & _). simpl in *.
      assert (Nm : ~ In m (MODULES w)).
      { intros Hm. apply mem_In in Hm. congruence. }
      split; [|split; [|split]].
      * intros x. rewrite Hin, in_app_iff. simpl. tauto.
      * intros ND. apply Hnd. apply NoDup_app; [exact ND| |].
        -- constructor; [tauto|constructor].
        -- intros x Hx [<-|[]]. contradiction.
      * exists (registered ++ R). now rewrite HR, app_assoc.
      * intros Hall. exfalso. apply Nm, Hall. now left.
Qed.

End DirectiveFacts.

Lemma run_section_ids_witness :
  run (parsed_or_empty sample_modules) (sample_world [])
  = (fst (run (parsed_or_empty sample_modules) (sample_world [])),
     snd (run (parsed_or_empty sample_modules) (sample_world []))) /\
  map node_ids
      (match fst (run (parsed_or_empty sample_modules) (sample_world [])) with
       | OK nodes => nodes
       | Raise _ => []
       end)
  = [[service_id_of 0]].
Proof.
  assert (h : run (parsed_or_empty sample_modules) (sample_world [])
              = (OK (match fst (run (parsed_or_empty sample_modules)
                                    (sample_world [])) with
                     | OK nodes => nodes
                     | Raise _ => []
                     end),
                 snd (run (parsed_or_empty sample_modules) (sample_world []))))
    by (vm_compute; reflexivity).
  exact (conj (surjective_pairing _)
              (proj1 (proj2 (run_section_ids _ _ _ _ h)))).
Defined.

Lemma run_renders_selected_witness :
  declared (parsed_or_empty sample_modules) /\
  exists w1 names,
    load_services (parsed_or_empty sample_modules) (sample_world [])
    = (OK tt, w1) /\
    selection (parsed_or_empty sample_modules) = OK names.
Proof.
  assert (h1 : declared (parsed_or_empty sample_modules)).
  { apply (parsed_declared sample_json_loads sample_modules). reflexivity. }
  assert (h2 : run (parsed_or_empty sample_modules) (sample_world [])
               = (OK (match fst (run (parsed_or_empty sample_modules)
                                     (sample_world [])) with
                      | OK nodes => nodes
                      | Raise _ => []
                      end),
                  snd (run (parsed_or_empty sample_modules)
                           (sample_world []))))
    by (vm_compute; reflexivity).
  destruct (run_renders_selected _ _ _ _ h1 h2) as (w1 & names & L & S & _).
  exact (conj h1 (ex_intro _ w1 (ex_intro _ names (conj L S)))).
Defined.

Lemma import_modules_cache_witness :
  import_modules [lit "app.views"; lit "app.views"] (sample_world [])
  = (OK tt,
     {| SERVICES := [sample_service; sample_service];
        MODULES := [lit "app.views"]; serialno := 0 |}) /\
  (NoDup (MODULES (sample_world [])) -> NoDup [lit "app.views"]).
Proof.
  assert (h : import_modules [lit "app.views"; lit "app.views"]
                             (sample_world [])
              = (OK tt,
                 {| SERVICES := [sample_service; sample_service];
                    MODULES := [lit "app.views"]; serialno := 0 |}))
    by reflexivity.
  exact (conj h (proj1 (proj2 (import_modules_cache _ _ _ h)))).
Defined.

(** ** The field type map *)

Lemma str_eqb_sym (a b : str) : str_eqb a b = str_eqb b a.
Proof.
  destruct (str_eqb a b) eqn:E; symmetry.
  - apply str_eqb_eq in E. subst. apply str_eqb_refl.
  - destruct (str_eqb b a) eqn:E'; [|reflexivity].
    apply str_eqb_eq in E'. subst. now rewrite str_eqb_refl in E.
Qed.

Lemma lookup_set_item {A : Type} (key k : str) (v : A) (d : list (str * A)) :
  lookup key (set_item k v d)
  = if str_eqb key k then Some v else lookup key d.
Proof.
  induction d as [|[k' v'] d IH]; simpl.
  - reflexivity.
  - destruct (str_eqb k k') eqn:E; simpl.
    + apply str_eqb_eq in E. subst k'. now destruct (str_eqb key k).
    + rewrite IH. destruct (str_eqb key k') eqn:E'; [|reflexivity].
      apply str_eqb_eq in E'. subst k'.
      rewrite str_eqb_sym, E. reflexivity.
Qed.

Lemma set_item_keys {A : Type} (k : str) (v : A) (d : list (str * A)) :
  NoDup (map fst d) -> NoDup (map fst (set_item k v d)) /\
  forall x, In x (map fst (set_item k v d)) <-> x = k \/ In x (map fst d).
Proof.
  induction d as [|[k' v'] d IH]; intros ND.
  - simpl. split; [constructor; [tauto|constructor]|].
    intros x. split; intros [H|[]]; left; now symmetry.
  - simpl in *. inversion ND as [|? ? Hn ND']; subst.
    destruct (str_eqb k k') eqn:E.
    + apply str_eqb_eq in E. subst k'. simpl. split; [exact ND|].
      intros x. split; [tauto|]. intros [->|H]; auto.
    + destruct (IH ND') as [IH1 IH2]. simpl. split.
      * constructor; [|exact IH1]. rewrite IH2. intros [->|H]; [|tauto].
        now rewrite str_eqb_refl in E.
      * intros x. rewrite IH2. tauto.
Qed.

Lemma lookup_set_items {A : Type} (key : str) (v : A) (names : list str)
    (d : list (str * A)) :
  lookup key (fold_left (fun m name => set_item name v m) names d)
  = if mem key names then Some v else lookup key d.
Proof.
  revert d. induction names as [|n names IH]; intros d; simpl;
    [reflexivity|].
  rewrite IH, lookup_set_item.
  destruct (mem key names); simpl; [now rewrite orb_true_r|].
  now rewrite orb_false_r.
Qed.

Lemma set_items_keys {A : Type} (v : A) (names : list str)
    (d : list (str * A)) :
  NoDup (map fst d) ->
  NoDup (map fst (fold_left (fun m name => set_item name v m) names d)).
Proof.
  revert d. induction names as [|n names IH]; intros d ND; simpl;
    [exact ND|].
  apply IH. now apply set_item_keys.
Qed.

Lemma lookup_add_field (key : str) (m : field_type_map) (f : field) :
  lookup key (add_field m f)
  = if is_typed f && mem key (typenames f) then Some (f, true)
    else if mem key (field_names f) then Some (f, false)
    else lookup key m.
Proof.
  unfold add_field. destruct (is_typed f); simpl.
  - rewrite lookup_set_items. destruct (mem key (typenames f));
      [reflexivity|]. apply lookup_set_items.
  - apply lookup_set_items.
Qed.

Lemma add_field_keys (m : field_type_map) (f : field) :
  NoDup (map fst m) -> NoDup (map fst (add_field m f)).
Proof.
  intros ND. unfold add_field.
  destruct (is_typed f); repeat apply set_items_keys; exact ND.
Qed.

Lemma build_map_entries (fields done : list field) (m : field_type_map) :
  (forall key e, lookup key m = Some e -> entry_of (done ++ fields) key e) ->
  NoDup (map fst m) ->
  (forall key e, lookup key (fold_left add_field fields m) = Some e ->
                 entry_of (done ++ fields) key e) /\
  NoDup (map fst (fold_left add_field fields m)) /\
  (forall key, lookup key m <> None ->
               lookup key (fold_left add_field fields m) <> None) /\
  (forall f key,
      In f fields ->
      In key (field_names f) \/ (is_typed f = true /\ In key (typenames f)) ->
      lookup key (fold_left add_field fields m) <> None).
Proof.
  revert done m. induction fields as [|f fields IH]; intros done m Hm ND.
  - simpl. split; [exact Hm|]. split; [exact ND|]. split; [auto|].
    intros f0 key0 [].
  - simpl fold_left.
    assert (Hm' : forall key e, lookup key (add_field m f) = Some e ->
                                entry_of ((done ++ [f]) ++ fields) key e).
    { intros key e. rewrite lookup_add_field, <- app_assoc. simpl app.
      destruct (is_typed f && mem key (typenames f)) eqn:T.
      - intros E. injection E as <-. apply andb_true_iff in T.
        destruct T as [T1 T2]. apply mem_In in T2.
        split; [apply in_or_app; right; now left|]. simpl. auto.
      - destruct (mem key (field_names f)) eqn:N; [|apply Hm].
        intros E. injection E as <-. apply mem_In in N.
        split; [apply in_or_app; right; now left|]. exact N. }
    destruct (IH (done ++ [f]) _ Hm' (add_field_keys _ _ ND))
      as (I1 & I2 & I3 & I4).
    rewrite <- app_assoc in I1. simpl app in I1.
    split; [exact I1|]. split; [exact I2|]. split.
    + intros key0 Hk. apply I3. rewrite lookup_add_field.
      destruct (is_typed f && mem key0 (typenames f)); [discriminate|].
      destruct (mem key0 (field_names f)); [discriminate|exact Hk].
    + intros f' key [<-|Hin] Hkey; [|now apply (I4 f')].
      apply I3. rewrite lookup_add_field.
      destruct Hkey as [Hn|[Ht Hn]].
      * apply mem_In in Hn. rewrite Hn.
        destruct (is_typed f && mem key (typenames f)); discriminate.
      * apply mem_In in Hn. rewrite Ht, Hn. discriminate.
Qed.

(** X14.  The map [get_field_type_map] builds from an empty cache has
    one entry for every name and, for typed fields, every type name of
    the fields, and no others: an entry flagged untyped names a field
    that has the key among its names, an entry flagged typed names a
    typed field that has it among its type names.  The map it returns is
    the one it keeps, so the next call returns the same map; a cache
    that is not empty is returned as it is, whatever the fields. *)
Theorem get_field_type_map_entries (fields : list field)
    (cached : field_type_map) :
  (forall key f typed,
      lookup key (fst (get_field_type_map fields [])) = Some (f, typed) ->
      In f fields /\
      if typed then is_typed f = true /\ In key (typenames f)
      else In key (field_names f)) /\
  (forall f key,
      In f fields ->
      In key (field_names f) \/ (is_typed f = true /\ In key (typenames f)) ->
      lookup key (fst (get_field_type_map fields [])) <> None) /\
  NoDup (map fst (fst (get_field_type_map fields []))) /\
  get_field_type_map fields (snd (get_field_type_map fields cached))
  = get_field_type_map fields cached /\
  (cached <> [] -> get_field_type_map fields cached = (cached, cached)).
Proof.
  destruct (build_map_entries fields [] [])
    as (I1 & I2 & _ & I4); [discriminate|constructor|].
  unfold get_field_type_map. simpl fst. simpl snd.
  split; [|split; [|split; [|split]]].
  - intros key f typed H. exact (I1 key (f, typed) H).
  - exact I4.
  - exact I2.
  - destruct cached as [|c cached]; [|reflexivity].
    destruct (fold_left add_field fields []); reflexivity.
  - destruct cached; [congruence|reflexivity].
Qed.

Example get_field_type_map_sample :
  fst (get_field_type_map [sample_typed_field; sample_plain_field] [])
  = [(lit "param", (sample_typed_field, false));
     (lit "arg", (sample_plain_field, false));
     (lit "type", (sample_typed_field, true));
     (lit "returns", (sample_plain_field, false))].
Proof. reflexivity. Qed.

(** ** The executor: its three outcomes *)

Section OutcomeFacts.

Context {A SM : Type} {I : Interpreter A SM}.

(** X15.  Whatever the executed content does, [run] ends in one of three
    ways: it returns no node and the input has the captured lines
    spliced in; it returns exactly one error node and the input is
    untouched; or an exception whose class does not derive from
    [Exception] propagates and the input is untouched.  It never reports
    an error and splices, and never returns more than one node. *)
Theorem exec_run_outcomes (d : exec_directive) (sm : SM) (p : process A) :
  (fst (fst (exec_run d sm p)) = Returned [] /\
   exists text,
     getvalue (snd (py_exec (join [LF] (content d)) (redirect_stdout p)))
     = OK text /\
     snd (fst (exec_run d sm p))
     = insert_input sm
         (string2lines text
            match lookup (lit "tab-width") (exec_options d) with
            | Some w => w
            | None => settings_tab_width d
            end)
         (source_at sm (lineno d - input_offset sm - 1)%Z)) \/
  (snd (fst (exec_run d sm p)) = sm /\
   exists location message,
     fst (fst (exec_run d sm p))
     = Returned [Node error [] None
                      [text_node paragraph location;
                       text_node paragraph message]]) \/
  (snd (fst (exec_run d sm p)) = sm /\
   exists e,
     fst (fst (exec_run d sm p)) = Propagated e /\ is_Exception e = false).
Proof.
  unfold exec_run.
  destruct (py_exec (join [LF] (content d)) (redirect_stdout p))
    as [outcome p'].
  simpl snd. destruct outcome as [|e].
  - destruct (getvalue p') as [text|e] eqn:G.
    + left. simpl. split; [reflexivity|]. now exists text.
    + right. left. simpl. split; [reflexivity|].
      do 2 eexists. reflexivity.
  - destruct (is_Exception e) eqn:E.
    + right. left. simpl. split; [reflexivity|].
      do 2 eexists. reflexivity.
    + right. right. simpl. split; [reflexivity|].
      exists e. now split.
Qed.

End OutcomeFacts.
